(** * A shallow embedding of the recent-visits store of [recent_visits.c]

    The C library keeps, per user, a bounded array of visits, evicts the
    oldest one when the array is full, sorts on query, and rewrites a binary
    file after each mutation.  This file translates the functions of the C
    source into Rocq:

    - sizes and counts ([size_t]) are [Z] values with their 64-bit
      wrap-around written out where the source computes with them;
    - byte buffers are [list byte]; a heap string created by [strdup] is the
      content followed by its terminating NUL byte;
    - every call to [malloc], [realloc] or [strdup] consults an allocation
      oracle ([list bool]; an exhausted oracle means "succeeds");
    - a step whose C behaviour is undefined (reading an uninitialised array
      slot, writing past an allocation) yields [Undefined]. *)

From Stdlib Require Import String.
From Stdlib Require Import List ZArith Lia Bool Permutation.
From Stdlib Require Import Strings.Byte.
Import ListNotations.
Open Scope Z_scope.

(** ** Outcomes of C functions *)

Inductive outcome (A : Type) : Type :=
| Ok (a : A)
| Undefined.
Arguments Ok {A} a.
Arguments Undefined {A}.

(** ** Machine integers *)

Definition size_max_mod : Z := 2 ^ 64.

(** Byte size of an array of [n] pointers: [n * 8] wraps modulo 2^64, and
    the number of pointer slots the block really holds follows from it. *)
Definition alloc_slots (n : Z) : Z := ((n * 8) mod size_max_mod) / 8.

(** One allocation request: the oracle answers, [true] = success. *)
Definition next_alloc (al : list bool) : bool * list bool :=
  match al with
  | [] => (true, [])
  | b :: al' => (b, al')
  end.

(** ** Data model (recent_visits.h and the internal structs) *)

Record timespec := mk_timespec { tv_sec : Z; tv_nsec : Z }.

(** [Visit]: [url] and [text] are the heap buffers the pointers refer to. *)
Record Visit := mk_visit {
  visit_id : Z;
  url : list byte;
  text : list byte;
  time : timespec
}.

(** [UserVisits]: [visit_count] is [length visits]. *)
Record UserVisits := mk_user {
  user_id : Z;
  visits : list Visit;
  capacity : Z
}.

(** [struct VisitManager]: [user_count] is [length users]. *)
Record VisitManager := mk_manager {
  users : list UserVisits;
  user_capacity : Z;
  max_visits : Z;
  path : string
}.

(** The user's record as an abstract value: user id and visits. *)
Definition view (m : VisitManager) : list (Z * list Visit) :=
  map (fun u => (user_id u, visits u)) (users m).

(** ** Helpers of the C file *)

(** [find_user]: the first record with the given id. *)
Fixpoint find_user (us : list UserVisits) (uid : Z) : option UserVisits :=
  match us with
  | [] => None
  | u :: us' => if user_id u =? uid then Some u else find_user us' uid
  end.

(** Writing through the pointer [find_user] returned: the first record
    with the id of [u] is replaced by [u]. *)
Fixpoint set_user (us : list UserVisits) (u : UserVisits) : list UserVisits :=
  match us with
  | [] => []
  | u' :: us' =>
      if user_id u' =? user_id u then u :: us' else u' :: set_user us' u
  end.

Definition update_user (m : VisitManager) (u : UserVisits) : VisitManager :=
  mk_manager (set_user (users m) u) (user_capacity m) (max_visits m) (path m).

(** [strdup(s)]: the content followed by the terminating NUL. *)
Definition strdup_buf (s : list byte) : list byte := s ++ [x00].

(** [strlen(buf)]: the index of the first NUL; [None] when the buffer has
    none, where [strlen] would read past the allocation. *)
Fixpoint strlen (bs : list byte) : option nat :=
  match bs with
  | [] => None
  | b :: bs' => if Byte.eqb b x00 then Some O else option_map S (strlen bs')
  end.

(** A C string content: no NUL byte inside. *)
Definition cstring (s : list byte) : Prop := ~ In x00 s.

(** ** Generic list surgery used by the C loops *)

(** [a[j] = x] for an in-bounds [j]. *)
Fixpoint replace_nth {A} (l : list A) (j : nat) (x : A) : list A :=
  match l, j with
  | [], _ => []
  | _ :: l', O => x :: l'
  | y :: l', S j' => y :: replace_nth l' j' x
  end.

(** Swap-and-pop: [if (j < count - 1) a[j] = a[count - 1]; count--;] *)
Definition swap_remove {A} (l : list A) (j : nat) : list A :=
  match rev l with
  | [] => []
  | lst :: rinit =>
      let init := rev rinit in
      if (j <? length init)%nat then replace_nth init j lst else init
  end.

(** Removing the [j]-th element, order kept (used to state results). *)
Definition remove_nth {A} (l : list A) (j : nat) : list A :=
  firstn j l ++ skipn (S j) l.

(** First index whose element satisfies [p] (a [for] loop with [break]). *)
Fixpoint find_index {A} (p : A -> bool) (l : list A) : option nat :=
  match l with
  | [] => None
  | x :: l' => if p x then Some O else option_map S (find_index p l')
  end.

(** ** Timestamps *)

(** The strict order used by the eviction scan. *)
Definition ts_ltb (a b : timespec) : bool :=
  (tv_sec a <? tv_sec b) || ((tv_sec a =? tv_sec b) && (tv_nsec a <? tv_nsec b)).

(** [for (i = 1; i < visit_count; i++) if (visits[i]->time < oldest_time) ...] *)
Fixpoint oldest_loop (vs : list Visit) (i oi : nat) (ot : timespec) : nat :=
  match vs with
  | [] => oi
  | v :: vs' =>
      if ts_ltb (time v) ot then oldest_loop vs' (S i) i (time v)
      else oldest_loop vs' (S i) oi ot
  end.

(** [oldest_idx = 0; oldest_time = visits[0]->time; ...]; [None] when the
    array is empty, where [visits[0]] is not a live slot. *)
Definition oldest_index (vs : list Visit) : option nat :=
  match vs with
  | [] => None
  | v :: vs' => Some (oldest_loop vs' 1 0 (time v))
  end.

(** ** VisitManagerAddVisit *)

(** The lookup and lazy creation of the user record.  [inl m'] is an
    allocation failure leaving the manager [m']; [inr (u, m', al')] is the
    record found or created, the manager holding it, the oracle left. *)
Definition find_or_create (al : list bool) (m : VisitManager) (uid : Z)
  : outcome (VisitManager + (UserVisits * VisitManager * list bool)) :=
  match find_user (users m) uid with
  | Some u => Ok (inr (u, m, al))
  | None =>
      (* resize the users array if needed *)
      let grown :=
        if Z.of_nat (length (users m)) >=? user_capacity m then
          let (ok, al1) := next_alloc al in
          if ok then
            Some (mk_manager (users m) ((user_capacity m * 2) mod size_max_mod)
                    (max_visits m) (path m), al1)
          else None
        else Some (m, al) in
      match grown with
      | None => Ok (inl m)
      | Some (m1, al1) =>
          (* create_user(user_id, manager->max_visits) *)
          let (ok1, al2) := next_alloc al1 in
          if ok1 then
            let (ok2, al3) := next_alloc al2 in
            if ok2 then
              let u := mk_user uid [] (max_visits m1) in
              (* manager->users[manager->user_count++] = user *)
              if Z.of_nat (length (users m1)) <? alloc_slots (user_capacity m1) then
                Ok (inr (u, mk_manager (users m1 ++ [u]) (user_capacity m1)
                              (max_visits m1) (path m1), al3))
              else Undefined
            else Ok (inl m1)
          else Ok (inl m1)
      end
  end.

(** [create_visit]: [malloc], [strdup(url)], [strdup(text)], then the
    current wall-clock time [now]. *)
Definition create_visit (al : list bool) (vid : Z) (u t : list byte) (now : timespec)
  : option Visit * list bool :=
  let (ok1, al1) := next_alloc al in
  if ok1 then
    let (ok2, al2) := next_alloc al1 in
    if ok2 then
      let (ok3, al3) := next_alloc al2 in
      if ok3 then (Some (mk_visit vid (strdup_buf u) (strdup_buf t) now), al3)
      else (None, al3)
    else (None, al2)
  else (None, al1).

(** The eviction block: [if (user->visit_count >= manager->max_visits)]. *)
Definition evict_oldest (max : Z) (vs : list Visit) : outcome (list Visit) :=
  if Z.of_nat (length vs) >=? max then
    match oldest_index vs with
    | None => Undefined
    | Some k => Ok (swap_remove vs k)
    end
  else Ok vs.

(** [user->visits[user->visit_count++] = visit]; the write is undefined
    past the allocated block. *)
Definition append_visit (m : VisitManager) (u : UserVisits) (v : Visit)
  : outcome (bool * VisitManager) :=
  if Z.of_nat (length (visits u)) <? alloc_slots (capacity u) then
    Ok (true, update_user m (mk_user (user_id u) (visits u ++ [v]) (capacity u)))
  else Undefined.

(** [url_arg]/[text_arg]: [None] is a NULL pointer, [Some s] a C string of
    content [s].  A NULL manager is not modelled (the call returns false). *)
Definition VisitManagerAddVisit (al : list bool) (now : timespec) (m : VisitManager)
    (uid vid : Z) (url_arg text_arg : option (list byte))
  : outcome (bool * VisitManager) :=
  match url_arg, text_arg with
  | Some u, Some t =>
      match find_or_create al m uid with
      | Undefined => Undefined
      | Ok (inl m1) => Ok (false, m1)
      | Ok (inr (usr, m1, al1)) =>
          if existsb (fun v => visit_id v =? vid) (visits usr) then Ok (true, m1)
          else
            match create_visit al1 vid u t now with
            | (None, _) => Ok (false, m1)
            | (Some v, al2) =>
                match evict_oldest (max_visits m1) (visits usr) with
                | Undefined => Undefined
                | Ok vs1 =>
                    let usr1 := mk_user (user_id usr) vs1 (capacity usr) in
                    if Z.of_nat (length vs1) >=? capacity usr then
                      let newcap :=
                        Z.min ((capacity usr * 2) mod size_max_mod) (max_visits m1) in
                      let (ok, _) := next_alloc al2 in
                      if ok then append_visit m1 (mk_user (user_id usr) vs1 newcap) v
                      else Ok (false, update_user m1 usr1)
                    else append_visit m1 usr1 v
                end
            end
      end
  | _, _ => Ok (false, m)
  end.

(** ** VisitManagerClear (the NULL-manager no-op is not modelled) *)

Definition VisitManagerClear (m : VisitManager) (uid : Z) : VisitManager :=
  match find_user (users m) uid with
  | None => m
  | Some u => update_user m (mk_user (user_id u) [] (capacity u))
  end.

(** ** VisitManagerDelete *)

(** One requested id: the first match is swap-removed, then [break]. *)
Definition delete_id (vs : list Visit) (id : Z) : bool * list Visit :=
  match find_index (fun v => visit_id v =? id) vs with
  | Some j => (true, swap_remove vs j)
  | None => (false, vs)
  end.

Fixpoint delete_ids (ids : list Z) (vs : list Visit) (found_any : bool)
  : bool * list Visit :=
  match ids with
  | [] => (found_any, vs)
  | id :: ids' =>
      let (f, vs') := delete_id vs id in delete_ids ids' vs' (found_any || f)
  end.

(** [m] and [ids] are [None] for NULL pointers; [ids = Some l] is the
    array [visitIds] of [visit_count = length l] entries. *)
Definition VisitManagerDelete (m : option VisitManager) (uid : Z)
    (ids : option (list Z)) : bool * option VisitManager :=
  match m, ids with
  | Some m0, Some ((_ :: _) as l) =>
      match find_user (users m0) uid with
      | None => (false, m)
      | Some u =>
          let (found_any, vs') := delete_ids l (visits u) false in
          (found_any, Some (update_user m0 (mk_user (user_id u) vs' (capacity u))))
      end
  | _, _ => (false, m)
  end.

(** ** VisitManagerGetRecentVisits *)

Section Query.

(** The in-place reordering done by [sort_visits] (the C library's [qsort]
    with [compare_visits]); its behaviour is studied in [Layout] below. *)
Variable sort_visits : list Visit -> list Visit.

(** Returns the array pointer ([None] = NULL, [Some a] = the user's own
    storage), [*count], and the manager after the in-place sort. *)
Definition VisitManagerGetRecentVisits (m : VisitManager) (uid : Z)
  : option (list Visit) * Z * VisitManager :=
  match find_user (users m) uid with
  | None => (None, 0, m)
  | Some u =>
      let u' := mk_user (user_id u) (sort_visits (visits u)) (capacity u) in
      (Some (visits u'), Z.of_nat (length (visits u)), update_user m u')
  end.

End Query.

(** ** The persistence codec *)

Definition byte_of_Z (z : Z) : byte :=
  match Byte.of_N (Z.to_N (z mod 256)) with
  | Some b => b
  | None => x00
  end.

(** The [n] bytes [fwrite] emits for an integer field on a little-endian
    machine; a negative value comes out in two's complement. *)
Fixpoint le_bytes (n : nat) (z : Z) : list byte :=
  match n with
  | O => []
  | S n' => byte_of_Z z :: le_bytes n' (z / 256)
  end.

(** The unsigned integer [fread] stores from little-endian bytes. *)
Fixpoint le_value (bs : list byte) : Z :=
  match bs with
  | [] => 0
  | b :: bs' => Z.of_N (Byte.to_N b) + 256 * le_value bs'
  end.

(** A 64-bit [time_t] / [long] read back from its unsigned bit pattern. *)
Definition signed64 (z : Z) : Z := if z <? 2 ^ 63 then z else z - 2 ^ 64.

(** One visit as [serialize_manager] writes it: [strlen + 1] bytes of each
    buffer, then the 16 bytes of [struct timespec].  [None] when a buffer
    has no NUL, where [strlen] reads past the allocation. *)
Definition serialize_visit (v : Visit) : option (list byte) :=
  match strlen (url v), strlen (text v) with
  | Some ul, Some tl =>
      Some (le_bytes 4 (visit_id v)
            ++ le_bytes 8 (Z.of_nat (S ul)) ++ firstn (S ul) (url v)
            ++ le_bytes 8 (Z.of_nat (S tl)) ++ firstn (S tl) (text v)
            ++ le_bytes 8 (tv_sec (time v)) ++ le_bytes 8 (tv_nsec (time v)))
  | _, _ => None
  end.

Fixpoint serialize_visits (vs : list Visit) : option (list byte) :=
  match vs with
  | [] => Some []
  | v :: vs' =>
      match serialize_visit v, serialize_visits vs' with
      | Some b, Some bs => Some (b ++ bs)
      | _, _ => None
      end
  end.

Fixpoint serialize_users (us : list UserVisits) : option (list byte) :=
  match us with
  | [] => Some []
  | u :: us' =>
      match serialize_visits (visits u), serialize_users us' with
      | Some b, Some bs =>
          Some (le_bytes 4 (user_id u) ++ le_bytes 8 (Z.of_nat (length (visits u)))
                ++ b ++ bs)
      | _, _ => None
      end
  end.

(** [serialize_manager]: the bytes written to [manager->path] when [fopen]
    succeeds ([Undefined] when some [strlen] overruns its buffer). *)
Definition serialize_manager (m : VisitManager) : outcome (list byte) :=
  match serialize_users (users m) with
  | Some b =>
      Ok (le_bytes 8 (max_visits m) ++ le_bytes 8 (Z.of_nat (length (users m))) ++ b)
  | None => Undefined
  end.

(** The file format of the spec, for arbitrary contents: a stored bound, then
    per user its id, its visit count and its visits, each buffer written
    with its full length. *)
Definition encode_visit (v : Visit) : list byte :=
  le_bytes 4 (visit_id v)
  ++ le_bytes 8 (Z.of_nat (length (url v))) ++ url v
  ++ le_bytes 8 (Z.of_nat (length (text v))) ++ text v
  ++ le_bytes 8 (tv_sec (time v)) ++ le_bytes 8 (tv_nsec (time v)).

Definition encode_user (fu : Z * list Visit) : list byte :=
  le_bytes 4 (fst fu) ++ le_bytes 8 (Z.of_nat (length (snd fu)))
  ++ flat_map encode_visit (snd fu).

Definition encode_file (stored : Z) (fus : list (Z * list Visit)) : list byte :=
  le_bytes 8 stored ++ le_bytes 8 (Z.of_nat (length fus)) ++ flat_map encode_user fus.

(** *** Decoding: a reader over the unread bytes and the allocation oracle *)

Inductive dres (A : Type) : Type :=
| DOk (a : A) (inp : list byte) (al : list bool)
| DErr (al : list bool).
Arguments DOk {A} a inp al.
Arguments DErr {A} al.

Definition dec (A : Type) : Type := list byte -> list bool -> dres A.

Definition dret {A} (a : A) : dec A := fun inp al => DOk a inp al.

Definition dbind {A B} (c : dec A) (k : A -> dec B) : dec B :=
  fun inp al =>
    match c inp al with
    | DOk a inp' al' => k a inp' al'
    | DErr al' => DErr al'
    end.

Notation "x <- c ;; k" := (dbind c (fun x => k))
  (at level 61, c at next level, right associativity).

(** [fread(buf, 1, n, file) != n]: fewer than [n] bytes left fails. *)
Definition fread_bytes (n : Z) : dec (list byte) :=
  fun inp al =>
    if Z.of_nat (length inp) <? n then DErr al
    else DOk (firstn (Z.to_nat n) inp) (skipn (Z.to_nat n) inp) al.

Definition fread_u32 : dec Z := bs <- fread_bytes 4 ;; dret (le_value bs).
Definition fread_u64 : dec Z := bs <- fread_bytes 8 ;; dret (le_value bs).

(** [fread(&visit->time, sizeof(struct timespec), 1, file)]. *)
Definition fread_timespec : dec timespec :=
  bs <- fread_bytes 16 ;;
  dret (mk_timespec (signed64 (le_value (firstn 8 bs)))
                    (signed64 (le_value (skipn 8 bs)))).

(** An allocation; failure aborts the read. *)
Definition dalloc : dec unit :=
  fun inp al => let (ok, al') := next_alloc al in if ok then DOk tt inp al' else DErr al'.

(** The body of the inner loop of [deserialize_manager] up to
    "Add visit to user". *)
Definition read_visit : dec Visit :=
  _ <- dalloc ;;                  (* malloc(sizeof(Visit)) *)
  vid <- fread_u32 ;;
  ul <- fread_u64 ;;
  _ <- dalloc ;;                  (* malloc(url_len) *)
  ub <- fread_bytes ul ;;
  tl <- fread_u64 ;;
  _ <- dalloc ;;                  (* malloc(text_len) *)
  tb <- fread_bytes tl ;;
  ts <- fread_timespec ;;
  dret (mk_visit vid ub tb ts).

Inductive vres : Type :=
| VOk (kept : list Visit) (inp : list byte) (al : list bool)
| VFail (al : list bool)
| VUB.

(** [for (j = 0; j < visit_count; j++)]: [n] iterations are left, [slots]
    is the size of [user->visits]. *)
Fixpoint read_visits (n : nat) (j max slots : Z) (kept : list Visit)
    (inp : list byte) (al : list bool) : vres :=
  match n with
  | O => VOk kept inp al
  | S n' =>
      match read_visit inp al with
      | DErr al' => VFail al'
      | DOk v inp' al' =>
          if j <? max then
            if j <? slots then read_visits n' (j + 1) max slots (kept ++ [v]) inp' al'
            else VUB
          else read_visits n' (j + 1) max slots kept inp' al'
      end
  end.

(** User id, visit count, and [create_user]'s two allocations. *)
Definition read_user_header : dec (Z * Z) :=
  uid <- fread_u32 ;;
  vc <- fread_u64 ;;
  _ <- dalloc ;;
  _ <- dalloc ;;
  dret (uid, vc).

(** Outcome of the user loop; [UFail k al] is a [goto cleanup] with the
    first [k] slots of [manager->users] written. *)
Inductive ures : Type :=
| UOk (us : list UserVisits) (inp : list byte) (al : list bool)
| UFail (inited : nat) (al : list bool)
| UUB.

Fixpoint read_users (n : nat) (slots max : Z) (acc : list UserVisits)
    (inp : list byte) (al : list bool) : ures :=
  match n with
  | O => UOk acc inp al
  | S n' =>
      match read_user_header inp al with
      | DErr al' => UFail (length acc) al'
      | DOk (uid, vc) inp1 al1 =>
          (* manager->users[i] = user *)
          if Z.of_nat (length acc) <? slots then
            let ucap := if 0 <? vc then vc else 10 in
            match read_visits (Z.to_nat vc) 0 max (alloc_slots ucap) [] inp1 al1 with
            | VOk vs inp2 al2 =>
                read_users n' slots max (acc ++ [mk_user uid vs ucap]) inp2 al2
            | VFail al2 => UFail (S (length acc)) al2
            | VUB => UUB
            end
          else UUB
      end
  end.

(** [deserialize_manager(path, max_visits)]; [file] is the content of the
    file at [path], [None] when [fopen] fails.  Returns the manager ([None]
    = NULL) and the allocation oracle left.  The [cleanup] path reads
    [manager->users[i]] for every [i < user_count]; a slot never written
    holds an indeterminate pointer, so reading and freeing it is undefined. *)
Definition deserialize_manager (al : list bool) (file : option (list byte))
    (p : string) (max : Z) : outcome (option VisitManager * list bool) :=
  match file with
  | None => Ok (None, al)
  | Some bytes =>
      match (_ <- dalloc ;;              (* malloc(sizeof(VisitManager)) *)
             _ <- dalloc ;;              (* strdup(path) *)
             _stored <- fread_u64 ;;     (* read and discarded *)
             uc <- fread_u64 ;;
             _ <- dalloc ;;              (* the users array *)
             dret uc) bytes al with
      | DErr al' => Ok (None, al')
      | DOk uc inp al' =>
          let ucap := if 0 <? uc then uc else 10 in
          match read_users (Z.to_nat uc) (alloc_slots ucap) max [] inp al' with
          | UOk us _ al'' => Ok (Some (mk_manager us ucap max p), al'')
          | UFail k al'' => if (k <? Z.to_nat uc)%nat then Undefined else Ok (None, al'')
          | UUB => Undefined
          end
      end
  end.

(** ** VisitManagerCreate *)

(** The fresh manager: [malloc], [strdup(path)], and a users array of 10. *)
Definition fresh_manager (al : list bool) (p : string) (max : Z) : option VisitManager :=
  let (ok1, al1) := next_alloc al in
  if ok1 then
    let (ok2, al2) := next_alloc al1 in
    if ok2 then
      let (ok3, _) := next_alloc al2 in
      if ok3 then Some (mk_manager [] 10 max p) else None
    else None
  else None.

Definition VisitManagerCreate (al : list bool) (file : option (list byte))
    (p : string) (max : Z) : outcome (option VisitManager) :=
  match deserialize_manager al file p max with
  | Undefined => Undefined
  | Ok (Some m, _) => Ok (Some m)
  | Ok (None, al') => Ok (fresh_manager al' p max)
  end.

(** ** The comparator of [sort_visits] at the memory level *)

Module Layout.

(** Memory as 8-byte words indexed by byte address. *)
Definition mem : Type := Z -> Z.

Definition upd (h : mem) (a v : Z) : mem := fun x => if x =? a then v else h x.

(** LP64 layout of [Visit]: [visit_id] at 0 (4 bytes and 4 of padding),
    [url] at 8, [text] at 16, [time] at 24 ([tv_sec] at 24, [tv_nsec] at
    32); an element of the [Visit *] array is 8 bytes wide. *)
Definition off_time : Z := 24.
Definition ptr_size : Z := 8.

Definition tv_sec_at (h : mem) (p : Z) : Z := h (p + off_time).
Definition tv_nsec_at (h : mem) (p : Z) : Z := h (p + off_time + 8).

(** [compare_visits(a, b)] as written: [a] and [b] are cast to [Visit *]
    and their [time] field is read at [a + 24] and [b + 24]. *)
Definition compare_visits (h : mem) (a b : Z) : Z :=
  let s1 := tv_sec_at h a in
  let n1 := tv_nsec_at h a in
  let s2 := tv_sec_at h b in
  let n2 := tv_nsec_at h b in
  if s1 >? s2 then -1
  else if s1 <? s2 then 1
  else if n1 >? n2 then -1
  else if n1 <? n2 then 1
  else 0.

(** The same body applied to the [Visit] pointers stored in the elements:
    what an array of [Visit *] hands to the comparator. *)
Definition compare_visits_deref (h : mem) (a b : Z) : Z :=
  compare_visits h (h a) (h b).

(** The C library's [qsort] over [n] elements of [ptr_size] bytes at
    [base], as an in-place insertion sort calling [cmp] on the addresses of
    two adjacent elements and exchanging them on a positive result.  On two
    elements every [qsort] of glibc makes the single call
    [cmp(&a[0], &a[1])] and exchanges only on a positive result. *)
Fixpoint sift (cmp : mem -> Z -> Z -> Z) (fuel : nat) (h : mem) (base k : Z) : mem :=
  match fuel with
  | O => h
  | S f =>
      if 0 <? k then
        let a := base + ptr_size * (k - 1) in
        let b := base + ptr_size * k in
        if 0 <? cmp h a b then sift cmp f (upd (upd h a (h b)) b (h a)) base (k - 1)
        else h
      else h
  end.

Fixpoint insertion_passes (cmp : mem -> Z -> Z -> Z) (todo i : nat) (h : mem) (base : Z)
  : mem :=
  match todo with
  | O => h
  | S t => insertion_passes cmp t (S i) (sift cmp i h base (Z.of_nat i)) base
  end.

Definition qsort (cmp : mem -> Z -> Z -> Z) (h : mem) (base : Z) (n : nat) : mem :=
  match n with
  | O => h
  | S n' => insertion_passes cmp n' 1 h base
  end.

(** [sort_visits(visits, visit_count)]. *)
Definition sort_visits (h : mem) (base : Z) (n : nat) : mem :=
  qsort compare_visits h base n.

(** The element array as read back by the caller. *)
Definition slots (h : mem) (base : Z) (n : nat) : list Z :=
  map (fun i => h (base + ptr_size * Z.of_nat i)) (seq 0 n).

(** The heap after [VisitManagerCreate(path, 10)] and two [AddVisit]s for
    one user at times 100 s and 200 s: the user's array (10 slots from
    [malloc(10 * 8)]) at 4096 holds the visits at 8192 (older) and 8256
    (newer); the eight unused slots read as zero. *)
Definition arr_base : Z := 4096.
Definition p_old : Z := 8192.
Definition p_new : Z := 8256.

Definition heap0 : mem :=
  fun a =>
    if a =? arr_base then p_old
    else if a =? arr_base + 8 then p_new
    else if a =? p_old + off_time then 100
    else if a =? p_new + off_time then 200
    else 0.

End Layout.

(** * Predicates, tactics and sample managers used below *)

(** Each record holds at most as many visits as its array has room for. *)
Definition wf_caps (m : VisitManager) : Prop :=
  Forall (fun u => Z.of_nat (length (visits u)) <= capacity u) (users m).

Definition s_a : list byte := [x61].

Definition visit_a : Visit := mk_visit 7 (strdup_buf s_a) (strdup_buf s_a) (mk_timespec 100 0).

Definition m_one : VisitManager := mk_manager [mk_user 1 [visit_a] 5] 10 5 "rv.dat".

Ltac ts_cases :=
  unfold ts_ltb in *;
  repeat match goal with
  | |- context [?a <? ?b] => destruct (Z.ltb_spec a b)
  | |- context [?a =? ?b] => destruct (Z.eqb_spec a b)
  | H : context [?a <? ?b] |- _ => destruct (Z.ltb_spec a b)
  | H : context [?a =? ?b] |- _ => destruct (Z.eqb_spec a b)
  end; simpl in *; try discriminate; try reflexivity; try lia.

Definition visit_at (id sec : Z) : Visit :=
  mk_visit id (strdup_buf s_a) (strdup_buf s_a) (mk_timespec sec 0).

Definition m_full : VisitManager :=
  mk_manager [mk_user 1 [visit_at 8 50; visit_at 7 100; visit_at 6 150] 3] 10 3 "rv.dat".

Definition m_full_after : VisitManager :=
  mk_manager [mk_user 1 [visit_at 6 150; visit_at 7 100; visit_at 9 300] 3] 10 3 "rv.dat".

(** Whether a visit's id is among the requested ids. *)
Definition in_ids (l : list Z) (v : Visit) : bool := existsb (Z.eqb (visit_id v)) l.

Definition m_del : VisitManager :=
  mk_manager [mk_user 1 [visit_at 6 150] 3] 10 3 "rv.dat".

Definition in_range (lo z hi : Z) : bool := (lo <=? z) && (z <? hi).

(** Fields that fit the widths of the file format: 32-bit ids, lengths that
    fit a [size_t], timestamps that fit a 64-bit [long]. *)
Definition visit_repr (v : Visit) : bool :=
  in_range 0 (visit_id v) (2 ^ 32)
  && (Z.of_nat (length (url v)) <? 2 ^ 64)
  && (Z.of_nat (length (text v)) <? 2 ^ 64)
  && in_range (- 2 ^ 63) (tv_sec (time v)) (2 ^ 63)
  && in_range (- 2 ^ 63) (tv_nsec (time v)) (2 ^ 63).

(** A record whose [count * sizeof(Visit * )] does not wrap. *)
Definition user_repr (fu : Z * list Visit) : bool :=
  in_range 0 (fst fu) (2 ^ 32)
  && (Z.of_nat (length (snd fu)) <? 2 ^ 61)
  && forallb visit_repr (snd fu).

Definition file_repr (fus : list (Z * list Visit)) : bool :=
  (Z.of_nat (length fus) <? 2 ^ 61) && forallb user_repr fus.

(** The record [deserialize_manager] builds for one stored user. *)
Definition decoded_user (max : Z) (fu : Z * list Visit) : UserVisits :=
  let n := Z.of_nat (length (snd fu)) in
  mk_user (fst fu) (firstn (Z.to_nat max) (snd fu)) (if 0 <? n then n else 10).

(** A heap string as [strdup] leaves it: its first NUL is its last byte. *)
Definition buffer_ok (b : list byte) : bool :=
  match strlen b with
  | Some n => Nat.eqb (S n) (length b)
  | None => false
  end.

(** A manager whose records fit the file format, hold at most [max_visits]
    visits each, and whose strings are [strdup] buffers. *)
Definition manager_repr (m : VisitManager) : bool :=
  (Z.of_nat (length (users m)) <? 2 ^ 61)
  && forallb (fun u => user_repr (user_id u, visits u)
                       && (Z.of_nat (length (visits u)) <=? max_visits m)
                       && forallb (fun v => buffer_ok (url v) && buffer_ok (text v)) (visits u))
             (users m).

Definition fus_three : list (Z * list Visit) :=
  [(1, [visit_at 8 50; visit_at 7 100; visit_at 6 150]); (2, [visit_at 5 10])].

(** The timestamp [compare_visits] reads at address [p]. *)
Definition time_at (h : Layout.mem) (p : Z) : timespec :=
  mk_timespec (Layout.tv_sec_at h p) (Layout.tv_nsec_at h p).

(** The state [AddVisit] relies on: a record has a non-empty array whose
    byte size does not wrap, holds at most as many visits as the array has
    slots and at most [max_visits]. *)
Definition user_ok (max : Z) (u : UserVisits) : bool :=
  (0 <? capacity u) && (capacity u <? 2 ^ 61)
  && (Z.of_nat (length (visits u)) <=? capacity u)
  && (Z.of_nat (length (visits u)) <=? max).

(** The manager: [1 <= max_visits] (the bound [create_user] allocates for),
    a non-empty users array holding every record, and every record as above. *)
(** The same invariant of one record, as a proposition. *)
Definition user_inv (max : Z) (u : UserVisits) : Prop :=
  0 < capacity u < 2 ^ 61 /\ Z.of_nat (length (visits u)) <= capacity u /\
  Z.of_nat (length (visits u)) <= max.

Definition manager_ok (m : VisitManager) : bool :=
  (1 <=? max_visits m) && (max_visits m <? 2 ^ 61)
  && (0 <? user_capacity m) && (Z.of_nat (length (users m)) <=? user_capacity m)
  && forallb (user_ok (max_visits m)) (users m).

(** What [deserialize_manager] guarantees of each record it builds: at most
    [max] visits, and no more than the array [create_user] allocated holds. *)
Definition bounded_user (max : Z) (u : UserVisits) : Prop :=
  Z.of_nat (length (visits u)) <= max /\
  Z.of_nat (length (visits u)) <= alloc_slots (capacity u).

(** The bytes of a heap string that [serialize_manager] writes: up to and
    including its first NUL ([strlen(b) + 1] bytes). *)
Definition cut_buf (b : list byte) : list byte :=
  match strlen b with
  | Some n => firstn (S n) b
  | None => b
  end.

Definition cut_visit (v : Visit) : Visit :=
  mk_visit (visit_id v) (cut_buf (url v)) (cut_buf (text v)) (time v).

(** A record holding two visits with the same id, as a loaded file may. *)
Definition m_dup : VisitManager :=
  mk_manager [mk_user 1 [visit_at 7 100; visit_at 7 50] 3] 10 3 "rv.dat".

(** ** A client session

    A sequence of calls a client makes on one manager: each [AddVisit] with
    its own allocation oracle and clock reading and non-NULL strings, and
    [Clear], [Delete] and [GetRecentVisits] (with the in-place sort
    [sort]).  [run] threads the manager through the calls and stops at the
    first undefined step. *)
Inductive call : Type :=
| CallAdd (al : list bool) (now : timespec) (uid vid : Z) (u t : list byte)
| CallClear (uid : Z)
| CallDelete (uid : Z) (ids : option (list Z))
| CallGet (uid : Z).

Fixpoint run (sort : list Visit -> list Visit) (m : VisitManager) (cs : list call)
  : outcome VisitManager :=
  match cs with
  | [] => Ok m
  | CallAdd al now uid vid u t :: cs' =>
      match VisitManagerAddVisit al now m uid vid (Some u) (Some t) with
      | Undefined => Undefined
      | Ok (_, m') => run sort m' cs'
      end
  | CallClear uid :: cs' => run sort (VisitManagerClear m uid) cs'
  | CallDelete uid ids :: cs' =>
      (* a non-NULL manager comes back non-NULL *)
      match snd (VisitManagerDelete (Some m) uid ids) with
      | Some m' => run sort m' cs'
      | None => run sort m cs'
      end
  | CallGet uid :: cs' =>
      let '(_, _, m') := VisitManagerGetRecentVisits sort m uid in run sort m' cs'
  end.

(** * Properties *)

(** ** Lemmas on the user table *)

Lemma find_user_some us uid u :
  find_user us uid = Some u -> user_id u = uid /\ In u us.
Proof.
  induction us as [|u' us IH]; simpl; [discriminate|].
  destruct (Z.eqb_spec (user_id u') uid) as [E|E].
  - intros [= <-]. auto.
  - intros H. destruct (IH H). auto.
Qed.

Lemma set_user_found us uid u :
  find_user us uid = Some u -> set_user us u = us.
Proof.
  induction us as [|u' us IH]; simpl; [discriminate|].
  destruct (Z.eqb_spec (user_id u') uid) as [E|E].
  - intros [= ->]. rewrite Z.eqb_refl. reflexivity.
  - intros H. pose proof (proj1 (find_user_some _ _ _ H)) as Hid.
    replace (user_id u' =? user_id u) with false by (symmetry; apply Z.eqb_neq; congruence).
    f_equal. auto.
Qed.

Lemma find_user_set_user_same us u0 u :
  find_user us (user_id u) = Some u0 -> find_user (set_user us u) (user_id u) = Some u.
Proof.
  induction us as [|u' us IH]; simpl; [discriminate|].
  destruct (Z.eqb_spec (user_id u') (user_id u)) as [E|E].
  - intros _. simpl. rewrite Z.eqb_refl. reflexivity.
  - intros H. simpl. replace (user_id u' =? user_id u) with false
      by (symmetry; apply Z.eqb_neq; congruence). auto.
Qed.

Lemma find_user_set_user_other us u uid :
  uid <> user_id u -> find_user (set_user us u) uid = find_user us uid.
Proof.
  intros Hne. induction us as [|u' us IH]; simpl; [reflexivity|].
  destruct (Z.eqb_spec (user_id u') (user_id u)) as [E|E]; simpl.
  - replace (user_id u =? uid) with false by (symmetry; apply Z.eqb_neq; congruence).
    replace (user_id u' =? uid) with false by (symmetry; apply Z.eqb_neq; congruence).
    reflexivity.
  - destruct (user_id u' =? uid); auto.
Qed.

(** Rewriting a record with its own id and visits leaves the view alone. *)
Lemma view_set_user_same_visits us uid u u' :
  find_user us uid = Some u -> user_id u' = user_id u -> visits u' = visits u ->
  map (fun x => (user_id x, visits x)) (set_user us u') =
  map (fun x => (user_id x, visits x)) us.
Proof.
  intros Hf Hid Hv. induction us as [|x us IH]; simpl in *; [reflexivity|].
  destruct (Z.eqb_spec (user_id x) uid) as [E|E].
  - injection Hf as ->. rewrite Hid, Z.eqb_refl. simpl. rewrite Hid, Hv. reflexivity.
  - pose proof (proj1 (find_user_some _ _ _ Hf)) as Hu.
    replace (user_id x =? user_id u') with false
      by (symmetry; apply Z.eqb_neq; congruence).
    simpl. f_equal. auto.
Qed.

(** ** C6: a duplicate visit id is a successful no-op *)

(** C6.  When user [uid] already has a visit with id [vid], [AddVisit] with
    any (non-NULL) URL and text returns true and leaves the whole manager
    unchanged: count, stored URL, text and timestamp included. *)
Theorem add_visit_duplicate_noop al now m uid vid url_s text_s usr :
  find_user (users m) uid = Some usr ->
  In vid (map visit_id (visits usr)) ->
  VisitManagerAddVisit al now m uid vid (Some url_s) (Some text_s) = Ok (true, m).
Proof.
  intros Hf Hin. unfold VisitManagerAddVisit, find_or_create. rewrite Hf.
  replace (existsb (fun v => visit_id v =? vid) (visits usr)) with true.
  - reflexivity.
  - symmetry. apply existsb_exists. apply in_map_iff in Hin.
    destruct Hin as [v [Hv Hin]]. exists v. split; [exact Hin|]. apply Z.eqb_eq. exact Hv.
Qed.

(** ** C10: unknown users and known users with no visits *)

(** C10.  For any in-place sort: an unknown user gets a NULL array and a
    zero count; a known user with no visits gets a non-NULL array and a zero
    count; after [Clear] the record is still found, empty, and queried as
    such. *)
Theorem get_recent_unknown_vs_empty (sort : list Visit -> list Visit) m uid :
  (find_user (users m) uid = None ->
   VisitManagerGetRecentVisits sort m uid = (None, 0, m)) /\
  (forall u, find_user (users m) uid = Some u -> visits u = [] ->
   exists a m', VisitManagerGetRecentVisits sort m uid = (Some a, 0, m')) /\
  (forall u, find_user (users m) uid = Some u ->
   exists u', find_user (users (VisitManagerClear m uid)) uid = Some u' /\
   visits u' = [] /\
   exists a m', VisitManagerGetRecentVisits sort (VisitManagerClear m uid) uid
                = (Some a, 0, m')).
Proof.
  split; [|split].
  - intros H. unfold VisitManagerGetRecentVisits. rewrite H. reflexivity.
  - intros u H Hv. unfold VisitManagerGetRecentVisits. rewrite H, Hv.
    eexists; eexists; reflexivity.
  - intros u H. pose proof (proj1 (find_user_some _ _ _ H)) as Hid.
    unfold VisitManagerClear. rewrite H.
    set (u' := mk_user (user_id u) [] (capacity u)).
    assert (Hf : find_user (users (update_user m u')) uid = Some u').
    { unfold update_user; simpl.
      pose proof (find_user_set_user_same (users m) u u') as X.
      subst u'; simpl in X. rewrite Hid in X |- *. exact (X H). }
    exists u'. split; [exact Hf|]. split; [reflexivity|].
    unfold VisitManagerGetRecentVisits. rewrite Hf. eexists; eexists; reflexivity.
Qed.

(** ** C8: allocation failures in AddVisit *)

(** C8 (counterexample).  A fresh manager with [max_visits = 5]: the user
    record of user 1 is created, then the allocation of the visit fails;
    [AddVisit] returns false and user 1 is now known. *)
Lemma add_visit_failure_registers_user :
  find_user (users (mk_manager [] 10 5 "rv.dat")) 1 = None /\
  VisitManagerAddVisit [true; true; false] (mk_timespec 100 0)
    (mk_manager [] 10 5 "rv.dat") 1 1 (Some s_a) (Some s_a)
  = Ok (false, mk_manager [mk_user 1 [] 5] 10 5 "rv.dat").
Proof. split; reflexivity. Qed.

Lemma replace_nth_length {A} (l : list A) j x : length (replace_nth l j x) = length l.
Proof. revert j; induction l as [|y l IH]; intros [|j]; simpl; auto. Qed.

Lemma swap_remove_length {A} (l : list A) j : length (swap_remove l j) = pred (length l).
Proof.
  unfold swap_remove. rewrite <- (rev_involutive l) at 2. rewrite length_rev.
  destruct (rev l) as [|lst rinit]; simpl; [reflexivity|].
  destruct (j <? length (rev rinit))%nat; [rewrite replace_nth_length|];
    apply length_rev.
Qed.

Lemma append_visit_true m u v b m' : append_visit m u v = Ok (b, m') -> b = true.
Proof.
  unfold append_visit. destruct (_ <? _); [intros [= <- _]; reflexivity | discriminate].
Qed.

Lemma find_or_create_found al m uid usr :
  find_user (users m) uid = Some usr -> find_or_create al m uid = Ok (inr (usr, m, al)).
Proof. intros H. unfold find_or_create. rewrite H. reflexivity. Qed.

Lemma find_or_create_new al m uid r :
  find_user (users m) uid = None -> find_or_create al m uid = Ok r ->
  (exists m1, r = inl m1 /\ users m1 = users m /\ max_visits m1 = max_visits m) \/
  (exists m2 al', r = inr (mk_user uid [] (max_visits m), m2, al') /\
     users m2 = users m ++ [mk_user uid [] (max_visits m)] /\
     max_visits m2 = max_visits m).
Proof.
  intros Hf H. unfold find_or_create in H. rewrite Hf in H.
  repeat (cbn in H; match type of H with
    | context [next_alloc ?x] => destruct (next_alloc x) as [[|] ?]
    | context [if ?c then _ else _] => destruct c
    end);
  try discriminate; injection H as <-;
  first [ left; eexists; split; [reflexivity | split; reflexivity]
        | right; do 2 eexists; split; [reflexivity | split; reflexivity] ].
Qed.

(** C8 (amended).  In any state where each record fits its array, an
    [AddVisit] that returns false with non-NULL arguments leaves every
    user's visits as they were; the one change to the user table it can
    make is to register a previously unknown [uid] with an empty record
    (the record is created before the visit allocation that failed). *)
Theorem add_visit_alloc_failure al now m uid vid url_s text_s m' :
  wf_caps m ->
  VisitManagerAddVisit al now m uid vid (Some url_s) (Some text_s) = Ok (false, m') ->
  view m' = view m \/
  (find_user (users m) uid = None /\ view m' = view m ++ [(uid, [])]).
Proof.
  intros Hwf H. unfold VisitManagerAddVisit in H.
  destruct (find_user (users m) uid) as [usr|] eqn:Hf.
  - rewrite (find_or_create_found al m uid usr Hf) in H.
    destruct (existsb _ (visits usr)); [congruence|].
    destruct (create_visit al vid url_s text_s now) as [[v|] al2].
    2: { left. injection H as <-. reflexivity. }
    pose proof (proj2 (find_user_some _ _ _ Hf)) as Hin.
    unfold wf_caps in Hwf. rewrite Forall_forall in Hwf.
    specialize (Hwf usr Hin).
    unfold evict_oldest in H.
    destruct (Z.of_nat (length (visits usr)) >=? max_visits m) eqn:Hge.
    + destruct (oldest_index (visits usr)) as [k|] eqn:Ho; [|discriminate].
      assert (Hne : visits usr <> []) by (intros E; rewrite E in Ho; discriminate).
      destruct (Z.of_nat (length (swap_remove (visits usr) k)) >=? capacity usr) eqn:Hc.
      * exfalso. apply Z.geb_le in Hc. rewrite swap_remove_length in Hc.
        destruct (visits usr); [congruence|]. simpl length in *. lia.
      * apply append_visit_true in H. discriminate.
    + destruct (Z.of_nat (length (visits usr)) >=? capacity usr).
      * destruct (next_alloc al2) as [[|] al3].
        -- apply append_visit_true in H. discriminate.
        -- left. injection H as <-. unfold view, update_user; simpl.
           apply (view_set_user_same_visits _ uid usr); [exact Hf | reflexivity | reflexivity].
      * apply append_visit_true in H. discriminate.
  - destruct (find_or_create al m uid) as [r|] eqn:Efc; [|discriminate].
    destruct (find_or_create_new al m uid r Hf Efc)
      as [[m1 [-> [Hu _]]] | [m2 [al' [-> [Hu Hmax]]]]].
    + left. injection H as <-. unfold view. rewrite Hu. reflexivity.
    + simpl in H. destruct (create_visit al' vid url_s text_s now) as [[v|] al2].
      2: { right. injection H as <-. split; [reflexivity|].
           unfold view. rewrite Hu, map_app. reflexivity. }
      exfalso. unfold evict_oldest in H. simpl in H. rewrite Hmax in H.
      destruct (0 >=? max_visits m) eqn:Hz; [discriminate|].
      simpl in H. rewrite Hz in H. apply append_visit_true in H. discriminate.
Qed.

(** ** C1: the comparator reads the pointer array, not the visits *)

(** C1 (code defect).  [qsort] hands [compare_visits] the addresses of two
    [Visit *] elements, which the comparator reads as [Visit] records: its
    "timestamps" are the words 24 and 32 bytes after each element, that is
    other slots of the pointer array.  In the heap after two [AddVisit]s at
    100 s and 200 s, the two elements compare equal and [sort_visits]
    leaves the older visit first. *)
Theorem sort_visits_keeps_older_first :
  Layout.tv_sec_at Layout.heap0 Layout.p_old < Layout.tv_sec_at Layout.heap0 Layout.p_new /\
  Layout.slots Layout.heap0 Layout.arr_base 2 = [Layout.p_old; Layout.p_new] /\
  Layout.compare_visits Layout.heap0 Layout.arr_base (Layout.arr_base + Layout.ptr_size) = 0 /\
  Layout.slots (Layout.sort_visits Layout.heap0 Layout.arr_base 2) Layout.arr_base 2
  = [Layout.p_old; Layout.p_new].
Proof. vm_compute. repeat split; reflexivity. Qed.

(** With the comparator applied to the stored pointers, the same sort puts
    the newer visit first. *)
Lemma sort_visits_deref_newest_first :
  Layout.slots (Layout.qsort Layout.compare_visits_deref Layout.heap0 Layout.arr_base 2)
    Layout.arr_base 2 = [Layout.p_new; Layout.p_old].
Proof. vm_compute. reflexivity. Qed.

(** ** C3: the eviction block on an empty record *)

(** C3 (code defect).  With [max_visits = 0], a fresh manager's first
    [AddVisit] enters the eviction block with an empty record and reads
    [user->visits[0]], a slot that holds no visit: undefined behaviour
    (and [visit_count - 1] wraps around). *)
Theorem add_visit_zero_capacity_undefined :
  VisitManagerCreate [] None "rv.dat" 0 = Ok (Some (mk_manager [] 10 0 "rv.dat")) /\
  VisitManagerAddVisit [] (mk_timespec 100 0) (mk_manager [] 10 0 "rv.dat") 1 1
    (Some s_a) (Some s_a) = Undefined.
Proof. split; reflexivity. Qed.

(** ** C9: the cleanup path of the decoder *)

(** C9 (code defect).  A file that announces one user and ends after its
    16-byte header: reading the user id fails, and the cleanup loop reads
    the never-written [manager->users[0]] and frees it, instead of
    returning NULL so that [Create] falls back to a fresh manager. *)
Theorem create_truncated_file_undefined :
  VisitManagerCreate [] (Some (le_bytes 8 5 ++ le_bytes 8 1)) "rv.dat" 5 = Undefined.
Proof. reflexivity. Qed.

(** ** Witnesses *)

Lemma add_visit_duplicate_noop_witness :
  find_user (users m_one) 1 = Some (mk_user 1 [visit_a] 5) /\
  In 7 (map visit_id (visits (mk_user 1 [visit_a] 5))) /\
  VisitManagerAddVisit [] (mk_timespec 200 0) m_one 1 7 (Some [x62]) (Some [x63])
  = Ok (true, m_one).
Proof.
  split; [reflexivity|]. split; [simpl; left; reflexivity|].
  apply (add_visit_duplicate_noop [] (mk_timespec 200 0) m_one 1 7 [x62] [x63]
           (mk_user 1 [visit_a] 5)); [reflexivity | simpl; left; reflexivity].
Defined.

Lemma get_recent_unknown_vs_empty_witness :
  VisitManagerGetRecentVisits (fun l => l) m_one 2 = (None, 0, m_one) /\
  exists u', find_user (users (VisitManagerClear m_one 1)) 1 = Some u' /\ visits u' = [] /\
  exists a m', VisitManagerGetRecentVisits (fun l => l) (VisitManagerClear m_one 1) 1
               = (Some a, 0, m').
Proof.
  destruct (get_recent_unknown_vs_empty (fun l => l) m_one 2) as [H1 _].
  destruct (get_recent_unknown_vs_empty (fun l => l) m_one 1) as [_ [_ H3]].
  split; [apply H1; reflexivity|]. apply (H3 (mk_user 1 [visit_a] 5)). reflexivity.
Defined.

Lemma add_visit_alloc_failure_witness :
  wf_caps (mk_manager [] 10 5 "rv.dat") /\
  VisitManagerAddVisit [true; true; false] (mk_timespec 100 0)
    (mk_manager [] 10 5 "rv.dat") 1 1 (Some s_a) (Some s_a)
  = Ok (false, mk_manager [mk_user 1 [] 5] 10 5 "rv.dat") /\
  (view (mk_manager [mk_user 1 [] 5] 10 5 "rv.dat") = view (mk_manager [] 10 5 "rv.dat") \/
   (find_user (users (mk_manager [] 10 5 "rv.dat")) 1 = None /\
    view (mk_manager [mk_user 1 [] 5] 10 5 "rv.dat")
    = view (mk_manager [] 10 5 "rv.dat") ++ [(1, [])])).
Proof.
  split; [constructor|]. split; [reflexivity|].
  apply (add_visit_alloc_failure [true; true; false] (mk_timespec 100 0)
           (mk_manager [] 10 5 "rv.dat") 1 1 s_a s_a); [constructor | reflexivity].
Defined.

(** ** C2: eviction of the oldest visit *)

Lemma ts_ltb_irrefl a : ts_ltb a a = false.
Proof. ts_cases. Qed.

(** Not older than [a], and [b] is older than [a]: not older than [b]. *)
Lemma ts_not_lt_step w a b :
  ts_ltb w a = false -> ts_ltb b a = true -> ts_ltb w b = false.
Proof. ts_cases. Qed.

Lemma ts_not_lt_keep w a b :
  ts_ltb w a = false -> ts_ltb b a = false -> ts_ltb w a = false.
Proof. auto. Qed.

(** The scan keeps the index of a minimum of what it has seen. *)
Lemma oldest_loop_spec (l pre vs : list Visit) (i oi : nat) (ot : timespec) :
  l = pre ++ vs -> length pre = i -> (oi < i)%nat ->
  (forall d, time (nth oi l d) = ot) ->
  (forall w, In w pre -> ts_ltb (time w) ot = false) ->
  let r := oldest_loop vs i oi ot in
  (r < length l)%nat /\
  forall d w, In w l -> ts_ltb (time w) (time (nth r l d)) = false.
Proof.
  revert pre i oi ot. induction vs as [|v vs IH]; intros pre i oi ot Hl Hi Hoi Hot Hpre; simpl.
  - rewrite app_nil_r in Hl. subst l. split; [lia|].
    intros d w Hw. rewrite Hot. auto.
  - destruct (ts_ltb (time v) ot) eqn:Hv.
    + apply (IH (pre ++ [v]) (S i) i (time v)).
      * rewrite <- app_assoc. exact Hl.
      * rewrite length_app. simpl. lia.
      * lia.
      * intros d. subst l. rewrite app_nth2 by lia. rewrite Hi, Nat.sub_diag. reflexivity.
      * intros w Hw. apply in_app_or in Hw. destruct Hw as [Hw | [<- | []]].
        -- apply (ts_not_lt_step (time w) ot); auto.
        -- apply ts_ltb_irrefl.
    + apply (IH (pre ++ [v]) (S i) oi ot).
      * rewrite <- app_assoc. exact Hl.
      * rewrite length_app. simpl. lia.
      * lia.
      * exact Hot.
      * intros w Hw. apply in_app_or in Hw. destruct Hw as [Hw | [<- | []]]; auto.
Qed.

Lemma oldest_index_spec vs k :
  oldest_index vs = Some k ->
  (k < length vs)%nat /\
  forall d w, In w vs -> ts_ltb (time w) (time (nth k vs d)) = false.
Proof.
  destruct vs as [|v vs]; simpl; [discriminate|]. intros [= <-].
  apply (oldest_loop_spec (v :: vs) [v] vs 1 0 (time v)); auto.
  intros w [<- | []]. apply ts_ltb_irrefl.
Qed.

Lemma replace_nth_split {A} (l : list A) k x :
  (k < length l)%nat -> replace_nth l k x = firstn k l ++ x :: skipn (S k) l.
Proof.
  revert k; induction l as [|y l IH]; intros [|k] Hk; simpl in *; try lia; auto.
  rewrite IH by lia. reflexivity.
Qed.

(** Swap-and-pop removes the [k]-th element and only it. *)
Lemma swap_remove_perm {A} (l : list A) k :
  (k < length l)%nat -> Permutation (swap_remove l k) (remove_nth l k).
Proof.
  intros Hk. unfold swap_remove, remove_nth.
  destruct (rev l) as [|lst rinit] eqn:E.
  { apply (f_equal (@rev A)) in E. rewrite rev_involutive in E. subst l. simpl in Hk. lia. }
  apply (f_equal (@rev A)) in E. rewrite rev_involutive in E. simpl in E. subst l.
  rewrite length_app in Hk. simpl in Hk.
  destruct (Nat.ltb_spec k (length (rev rinit))) as [Hlt|Hge].
  - rewrite replace_nth_split by exact Hlt.
    rewrite firstn_app, skipn_app.
    replace (k - length (rev rinit))%nat with O by lia.
    replace (S k - length (rev rinit))%nat with O by lia. simpl.
    rewrite app_nil_r.
    apply Permutation_app_head. apply Permutation_cons_append.
  - replace k with (length (rev rinit)) by lia.
    rewrite firstn_app, skipn_app, firstn_all, Nat.sub_diag, skipn_all2 by (simpl; lia).
    replace (S (length (rev rinit)) - length (rev rinit))%nat with 1%nat by lia.
    simpl. rewrite !app_nil_r. reflexivity.
Qed.

Lemma create_visit_some al vid u t now v al' :
  create_visit al vid u t now = (Some v, al') ->
  v = mk_visit vid (strdup_buf u) (strdup_buf t) now.
Proof.
  unfold create_visit.
  destruct (next_alloc al) as [[|] al1]; [|discriminate].
  destruct (next_alloc al1) as [[|] al2]; [|discriminate].
  destruct (next_alloc al2) as [[|] al3]; [|discriminate].
  intros [= <- _]. reflexivity.
Qed.

Lemma append_visit_ok m u v b m' :
  append_visit m u v = Ok (b, m') ->
  m' = update_user m (mk_user (user_id u) (visits u ++ [v]) (capacity u)).
Proof.
  unfold append_visit. destruct (_ <? _); [intros [= _ <-]; reflexivity | discriminate].
Qed.

(** C2.  A successful [AddVisit] of a new visit id on a record holding at
    least [max_visits] visits removes the visit at index [k] found by the
    scan, which no other visit of the record is older than, by moving the
    last live slot into position [k]; then it appends the new visit.  As a
    set, the record becomes the old one minus that visit plus the new one. *)
Theorem add_visit_evicts_oldest al now m uid vid url_s text_s usr m' :
  find_user (users m) uid = Some usr ->
  ~ In vid (map visit_id (visits usr)) ->
  max_visits m <= Z.of_nat (length (visits usr)) ->
  VisitManagerAddVisit al now m uid vid (Some url_s) (Some text_s) = Ok (true, m') ->
  let nv := mk_visit vid (strdup_buf url_s) (strdup_buf text_s) now in
  exists k victim u',
    oldest_index (visits usr) = Some k /\
    nth_error (visits usr) k = Some victim /\
    (forall w, In w (visits usr) -> ts_ltb (time w) (time victim) = false) /\
    find_user (users m') uid = Some u' /\
    visits u' = swap_remove (visits usr) k ++ [nv] /\
    Permutation (visits u') (nv :: remove_nth (visits usr) k).
Proof.
  intros Hf Hnin Hge H nv.
  pose proof (find_user_some _ _ _ Hf) as [Hid _].
  unfold VisitManagerAddVisit in H. rewrite (find_or_create_found al m uid usr Hf) in H.
  replace (existsb (fun v => visit_id v =? vid) (visits usr)) with false in H.
  2: { symmetry. apply Bool.not_true_iff_false. intros Hex.
       apply existsb_exists in Hex. destruct Hex as [v [Hv Hv']].
       apply Hnin, in_map_iff. exists v. split; [apply Z.eqb_eq|]; assumption. }
  destruct (create_visit al vid url_s text_s now) as [[v|] al2] eqn:Hcv; [|discriminate].
  apply create_visit_some in Hcv. subst v.
  unfold evict_oldest in H. rewrite (proj2 (Z.geb_le _ _) Hge) in H.
  destruct (oldest_index (visits usr)) as [k|] eqn:Ho; [|discriminate].
  destruct (oldest_index_spec _ _ Ho) as [Hk Hmin].
  destruct (nth_error (visits usr) k) as [victim|] eqn:Hn.
  2: { apply nth_error_None in Hn. lia. }
  assert (Hvict : forall d, nth k (visits usr) d = victim).
  { intros d. apply nth_error_nth. exact Hn. }
  assert (Hm' : exists c, m' = update_user m
            (mk_user (user_id usr) (swap_remove (visits usr) k ++ [nv]) c)).
  { destruct (_ >=? capacity usr).
    - destruct (next_alloc al2) as [[|] al3]; [|discriminate].
      apply append_visit_ok in H. eexists. exact H.
    - apply append_visit_ok in H. eexists. exact H. }
  destruct Hm' as [c ->].
  exists k, victim, (mk_user (user_id usr) (swap_remove (visits usr) k ++ [nv]) c).
  split; [reflexivity|]. split; [exact Hn|].
  split.
  { intros w Hw. rewrite <- (Hvict victim). apply Hmin. exact Hw. }
  split.
  { unfold update_user; simpl.
    pose proof (find_user_set_user_same (users m) usr
                  (mk_user (user_id usr) (swap_remove (visits usr) k ++ [nv]) c)) as X.
    simpl in X. rewrite Hid in X |- *. exact (X Hf). }
  split; [reflexivity|].
  simpl. rewrite <- Permutation_cons_append. apply perm_skip.
  apply swap_remove_perm. exact Hk.
Qed.

Lemma add_visit_evicts_oldest_witness :
  find_user (users m_full) 1 = Some (mk_user 1 [visit_at 8 50; visit_at 7 100; visit_at 6 150] 3) /\
  VisitManagerAddVisit [] (mk_timespec 300 0) m_full 1 9 (Some s_a) (Some s_a)
  = Ok (true, m_full_after) /\
  exists k victim u',
    oldest_index [visit_at 8 50; visit_at 7 100; visit_at 6 150] = Some k /\
    nth_error [visit_at 8 50; visit_at 7 100; visit_at 6 150] k = Some victim /\
    (forall w, In w [visit_at 8 50; visit_at 7 100; visit_at 6 150] ->
               ts_ltb (time w) (time victim) = false) /\
    find_user (users m_full_after) 1 = Some u' /\
    visits u' = swap_remove [visit_at 8 50; visit_at 7 100; visit_at 6 150] k
                ++ [visit_at 9 300] /\
    Permutation (visits u')
      (visit_at 9 300 :: remove_nth [visit_at 8 50; visit_at 7 100; visit_at 6 150] k).
Proof.
  split; [reflexivity|]. split; [reflexivity|].
  apply (add_visit_evicts_oldest [] (mk_timespec 300 0) m_full 1 9 s_a s_a
           (mk_user 1 [visit_at 8 50; visit_at 7 100; visit_at 6 150] 3) m_full_after).
  - reflexivity.
  - simpl. intuition discriminate.
  - simpl. lia.
  - reflexivity.
Defined.

(** ** C7: Delete *)

Lemma perm_filter {A} (f : A -> bool) l1 l2 :
  Permutation l1 l2 -> Permutation (filter f l1) (filter f l2).
Proof.
  induction 1; simpl.
  - constructor.
  - destruct (f x); auto.
  - destruct (f x), (f y); try constructor; reflexivity.
  - eapply perm_trans; eauto.
Qed.

Lemma filter_filter_and {A} (f g : A -> bool) l :
  filter g (filter f l) = filter (fun x => f x && g x) l.
Proof.
  induction l as [|x l IH]; simpl; [reflexivity|].
  destruct (f x); simpl; [destruct (g x)|]; simpl; rewrite ?IH; reflexivity.
Qed.

Lemma nodup_map_filter {A B} (h : A -> B) (f : A -> bool) l :
  NoDup (map h l) -> NoDup (map h (filter f l)).
Proof.
  induction l as [|x l IH]; simpl; intros H; [constructor|].
  inversion H as [|? ? Hx Hl]; subst.
  destruct (f x); simpl; auto. constructor; auto.
  intros Hin. apply Hx. apply in_map_iff in Hin. destruct Hin as [y [<- Hy]].
  apply in_map. apply filter_In in Hy. tauto.
Qed.

Lemma find_index_none {A} (p : A -> bool) l :
  find_index p l = None -> forall x, In x l -> p x = false.
Proof.
  induction l as [|y l IH]; simpl; [tauto|].
  destruct (p y) eqn:Hy; [discriminate|].
  destruct (find_index p l); [discriminate|].
  intros _ x [<- | Hx]; auto.
Qed.

Lemma filter_all_true {A} (f : A -> bool) l :
  (forall x, In x l -> f x = true) -> filter f l = l.
Proof.
  induction l as [|x l IH]; simpl; intros H; [reflexivity|].
  rewrite H by auto. f_equal. auto.
Qed.

Lemma find_index_some {A} (p : A -> bool) l j :
  find_index p l = Some j -> exists x, nth_error l j = Some x /\ p x = true.
Proof.
  revert j; induction l as [|y l IH]; intros j; simpl; [discriminate|].
  destruct (p y) eqn:Hy; [intros [= <-]; exists y; auto|].
  destruct (find_index p l) as [j'|]; simpl; [|discriminate]. intros [= <-]. simpl. auto.
Qed.

(** With distinct ids, the first match is the only one. *)
Lemma find_index_remove vs id j :
  NoDup (map visit_id vs) ->
  find_index (fun v => visit_id v =? id) vs = Some j ->
  (j < length vs)%nat /\
  remove_nth vs j = filter (fun v => negb (visit_id v =? id)) vs.
Proof.
  revert j. induction vs as [|x vs IH]; intros j Hnd; simpl; [discriminate|].
  inversion Hnd as [|? ? Hx Hnd']; subst.
  destruct (Z.eqb_spec (visit_id x) id) as [E|E].
  - intros [= <-]. split; [lia|]. unfold remove_nth; simpl.
    symmetry. apply filter_all_true. intros y Hy.
    destruct (Z.eqb_spec (visit_id y) id); [|reflexivity].
    exfalso. apply Hx. rewrite E, <- e. apply in_map. exact Hy.
  - destruct (find_index _ vs) as [j'|]; [|discriminate]. intros [= <-].
    destruct (IH j' Hnd' eq_refl) as [Hlt Heq]. split; [simpl; lia|].
    unfold remove_nth in *; simpl.
    replace (visit_id x =? id) with false by (symmetry; apply Z.eqb_neq; exact E).
    simpl. f_equal. exact Heq.
Qed.

Lemma delete_id_spec vs id b vs' :
  NoDup (map visit_id vs) -> delete_id vs id = (b, vs') ->
  (b = true <-> exists v, In v vs /\ visit_id v = id) /\
  Permutation vs' (filter (fun v => negb (visit_id v =? id)) vs) /\
  (b = false -> vs' = vs).
Proof.
  intros Hnd. unfold delete_id.
  destruct (find_index _ vs) as [j|] eqn:Hfi; intros [= <- <-].
  - destruct (find_index_remove vs id j Hnd Hfi) as [Hlt Heq].
    split; [|split; [|discriminate]].
    + split; [intros _|reflexivity].
      destruct (find_index_some _ _ _ Hfi) as [v [Hv Hp]].
      exists v. split; [eapply nth_error_In; exact Hv|]. apply Z.eqb_eq. exact Hp.
    + rewrite <- Heq. apply swap_remove_perm. exact Hlt.
  - pose proof (find_index_none _ _ Hfi) as Hno.
    split; [|split; [|reflexivity]].
    + split; [discriminate|]. intros [v [Hv Hid]]. specialize (Hno v Hv).
      simpl in Hno. rewrite Hid, Z.eqb_refl in Hno. discriminate.
    + rewrite filter_all_true; [reflexivity|]. intros v Hv. rewrite (Hno v Hv). reflexivity.
Qed.

Lemma delete_ids_true l vs vs' f' :
  delete_ids l vs true = (f', vs') -> f' = true.
Proof.
  revert vs. induction l as [|id l IH]; intros vs; simpl; [congruence|].
  destruct (delete_id vs id) as [b vs1]. simpl. apply IH.
Qed.

Lemma delete_ids_spec l vs f f' vs' :
  NoDup (map visit_id vs) ->
  delete_ids l vs f = (f', vs') ->
  (f' = true <-> f = true \/ exists v, In v vs /\ In (visit_id v) l) /\
  Permutation vs' (filter (fun v => negb (in_ids l v)) vs) /\
  (f' = false -> vs' = vs).
Proof.
  revert vs f. induction l as [|id l IH]; intros vs f Hnd H; simpl in H.
  - injection H as <- <-. split; [|split].
    + split; [tauto|]. intros [E | [v [_ []]]]. exact E.
    + rewrite filter_all_true; [reflexivity|]. reflexivity.
    + reflexivity.
  - destruct (delete_id vs id) as [b vs1] eqn:Hd.
    destruct (delete_id_spec vs id b vs1 Hnd Hd) as [Hb [Hp1 Hs1]].
    assert (Hnd1 : NoDup (map visit_id vs1)).
    { eapply Permutation_NoDup; [apply Permutation_map, Permutation_sym, Hp1|].
      apply nodup_map_filter. exact Hnd. }
    destruct (IH vs1 (f || b) Hnd1 H) as [Hf' [Hp' Hs']].
    split; [|split].
    + rewrite Hf'. split.
      * intros [Hfb | [v [Hv Hl]]].
        -- apply orb_true_iff in Hfb. destruct Hfb as [Hf | Hb']; [left; exact Hf|].
           right. destruct (proj1 Hb Hb') as [v [Hv Hid]]. exists v. split; [exact Hv|].
           left. symmetry. exact Hid.
        -- right. exists v. split; [|right; exact Hl].
           apply (Permutation_in _ Hp1) in Hv. apply filter_In in Hv. tauto.
      * intros [Hf | [v [Hv [Hid | Hl]]]].
        -- left. rewrite Hf. reflexivity.
        -- left. apply orb_true_iff. right. apply Hb. exists v. auto.
        -- destruct (Z.eqb_spec (visit_id v) id) as [E|E].
           ++ left. apply orb_true_iff. right. apply Hb. exists v. auto.
           ++ right. exists v. split; [|exact Hl].
              apply (Permutation_in _ (Permutation_sym Hp1)). apply filter_In.
              split; [exact Hv|]. apply negb_true_iff, Z.eqb_neq. exact E.
    + eapply perm_trans; [exact Hp'|].
      eapply perm_trans; [apply perm_filter; exact Hp1|].
      rewrite filter_filter_and. apply Permutation_refl'. apply filter_ext.
      intros v. unfold in_ids. simpl.
      destruct (visit_id v =? id); reflexivity.
    + intros Hf0. destruct b.
      * rewrite orb_true_r in H. apply delete_ids_true in H. congruence.
      * rewrite (Hs1 eq_refl) in Hs'. apply Hs'. exact Hf0.
Qed.

(** C7.  On a manager whose records have distinct visit ids (the data-model
    invariant), [Delete] returns true exactly when the manager and a
    non-empty id list are given, the user is known and some requested id is
    stored; on true the user's visits become the non-matching ones (in some
    order) and no other record changes; on false nothing changes. *)
Theorem delete_correct m uid ids r m' :
  (forall m0 u, m = Some m0 -> find_user (users m0) uid = Some u ->
                NoDup (map visit_id (visits u))) ->
  VisitManagerDelete m uid ids = (r, m') ->
  (r = true <->
   exists m0 l u, m = Some m0 /\ ids = Some l /\ l <> [] /\
     find_user (users m0) uid = Some u /\
     exists v, In v (visits u) /\ In (visit_id v) l) /\
  (r = true ->
   exists m0 l u vs', m = Some m0 /\ ids = Some l /\ find_user (users m0) uid = Some u /\
     m' = Some (update_user m0 (mk_user uid vs' (capacity u))) /\
     Permutation vs' (filter (fun v => negb (in_ids l v)) (visits u))) /\
  (r = false -> m' = m).
Proof.
  intros Hinv H. unfold VisitManagerDelete in H.
  destruct m as [m0|]; [|injection H as <- <-;
    split; [split; [discriminate | intros (m0 & _ & _ & [=] & _)] | split; [discriminate | reflexivity]]].
  destruct ids as [[|id l0]|];
    try (injection H as <- <-;
         split; [split; [discriminate | intros (m1 & l & u & [= <-] & [= <-] & Hl & _); try congruence]
                | split; [discriminate | reflexivity]]).
  destruct (find_user (users m0) uid) as [u|] eqn:Hf.
  2: { injection H as <- <-. split; [|split; [discriminate | reflexivity]].
       split; [discriminate|]. intros (m1 & l & u & [= <-] & _ & _ & Hu & _). congruence. }
  pose proof (find_user_some _ _ _ Hf) as [Hid _].
  destruct (delete_ids (id :: l0) (visits u) false) as [fa vs'] eqn:Hd.
  injection H as <- <-.
  destruct (delete_ids_spec _ _ _ _ _ (Hinv m0 u eq_refl Hf) Hd) as [Hfa [Hp Hs]].
  split; [|split].
  - rewrite Hfa. split.
    + intros [E | Hex]; [discriminate|].
      exists m0, (id :: l0), u. repeat split; auto. discriminate.
    + intros (m1 & l & u1 & [= <-] & [= <-] & _ & Hu1 & Hex).
      rewrite Hf in Hu1. injection Hu1 as <-. right. exact Hex.
  - intros ->. exists m0, (id :: l0), u, vs'. rewrite Hid.
    repeat split; auto.
  - intros ->. rewrite (Hs eq_refl). f_equal. unfold update_user.
    replace (mk_user (user_id u) (visits u) (capacity u)) with u by (destruct u; reflexivity).
    rewrite (set_user_found _ uid u Hf). destruct m0; reflexivity.
Qed.

Lemma delete_correct_witness :
  (forall m0 u, Some m_full = Some m0 -> find_user (users m0) 1 = Some u ->
                NoDup (map visit_id (visits u))) /\
  VisitManagerDelete (Some m_full) 1 (Some [7; 8]) = (true, Some m_del) /\
  (true = true <->
   exists m0 l u, Some m_full = Some m0 /\ Some [7; 8] = Some l /\ l <> [] /\
     find_user (users m0) 1 = Some u /\
     exists v, In v (visits u) /\ In (visit_id v) l).
Proof.
  assert (Hinv : forall m0 u, Some m_full = Some m0 -> find_user (users m0) 1 = Some u ->
                NoDup (map visit_id (visits u))).
  { intros m0 u [= <-] Hu. simpl in Hu. injection Hu as <-. simpl.
    repeat constructor; simpl; intuition discriminate. }
  assert (Hd : VisitManagerDelete (Some m_full) 1 (Some [7; 8]) = (true, Some m_del))
    by reflexivity.
  split; [exact Hinv|]. split; [exact Hd|].
  exact (proj1 (delete_correct (Some m_full) 1 (Some [7; 8]) true (Some m_del) Hinv Hd)).
Defined.

(** ** Decoding what was encoded *)

Lemma byte_of_Z_to_N z : Z.of_N (Byte.to_N (byte_of_Z z)) = z mod 256.
Proof.
  unfold byte_of_Z.
  destruct (Byte.of_N (Z.to_N (z mod 256))) as [b|] eqn:E.
  - apply Byte.to_of_N in E. rewrite E. apply Z2N.id.
    apply Z.mod_pos_bound. lia.
  - apply Byte.of_N_None_iff in E. pose proof (Z.mod_pos_bound z 256) as B. lia.
Qed.

Lemma le_bytes_length n z : length (le_bytes n z) = n.
Proof. revert z; induction n; intros z; simpl; auto. Qed.

Lemma le_value_le_bytes n z : le_value (le_bytes n z) = z mod 2 ^ (8 * Z.of_nat n).
Proof.
  revert z; induction n as [|n IH]; intros z; simpl le_bytes; simpl le_value.
  - rewrite Z.mod_1_r. reflexivity.
  - rewrite byte_of_Z_to_N, IH.
    replace (8 * Z.of_nat (S n)) with (8 + 8 * Z.of_nat n) by lia.
    rewrite Z.pow_add_r by lia.
    rewrite (Z.rem_mul_r z (2 ^ 8)) by (try apply Z.pow_pos_nonneg; lia).
    reflexivity.
Qed.

Lemma le_value_small n z : 0 <= z < 2 ^ (8 * Z.of_nat n) -> le_value (le_bytes n z) = z.
Proof. intros B. rewrite le_value_le_bytes. apply Z.mod_small. exact B. Qed.

Lemma signed64_le_bytes z : - 2 ^ 63 <= z < 2 ^ 63 -> signed64 (le_value (le_bytes 8 z)) = z.
Proof.
  intros B. rewrite le_value_le_bytes. unfold signed64. simpl (8 * Z.of_nat 8).
  destruct (Z.le_gt_cases 0 z) as [P|N].
  - rewrite Z.mod_small by lia. replace (z <? 2 ^ 63) with true by (symmetry; apply Z.ltb_lt; lia).
    reflexivity.
  - replace (z mod 2 ^ 64) with (z + 2 ^ 64).
    + replace (z + 2 ^ 64 <? 2 ^ 63) with false by (symmetry; apply Z.ltb_ge; lia). lia.
    + apply Z.mod_unique with (-1); lia.
Qed.

Lemma fread_bytes_app n bs rest al :
  0 <= n -> length bs = Z.to_nat n -> fread_bytes n (bs ++ rest) al = DOk bs rest al.
Proof.
  intros P L. unfold fread_bytes. rewrite length_app.
  replace (Z.of_nat (length bs + length rest) <? n) with false
    by (symmetry; apply Z.ltb_ge; lia).
  rewrite <- L, firstn_app, skipn_app, firstn_all, skipn_all, Nat.sub_diag.
  simpl. rewrite app_nil_r. reflexivity.
Qed.

Lemma fread_u32_le z rest al :
  0 <= z < 2 ^ 32 -> fread_u32 (le_bytes 4 z ++ rest) al = DOk z rest al.
Proof.
  intros B. unfold fread_u32, dbind.
  rewrite fread_bytes_app by (rewrite ?le_bytes_length; reflexivity || lia).
  unfold dret. rewrite le_value_small; [reflexivity|exact B].
Qed.

Lemma fread_u64_le z rest al :
  0 <= z < 2 ^ 64 -> fread_u64 (le_bytes 8 z ++ rest) al = DOk z rest al.
Proof.
  intros B. unfold fread_u64, dbind.
  rewrite fread_bytes_app by (rewrite ?le_bytes_length; reflexivity || lia).
  unfold dret. rewrite le_value_small; [reflexivity|exact B].
Qed.

Lemma fread_timespec_le s ns rest al :
  - 2 ^ 63 <= s < 2 ^ 63 -> - 2 ^ 63 <= ns < 2 ^ 63 ->
  fread_timespec (le_bytes 8 s ++ le_bytes 8 ns ++ rest) al = DOk (mk_timespec s ns) rest al.
Proof.
  intros Bs Bns. unfold fread_timespec, dbind. rewrite app_assoc.
  rewrite fread_bytes_app
    by (rewrite ?length_app, ?le_bytes_length; reflexivity || lia).
  unfold dret.
  rewrite firstn_app, skipn_app, le_bytes_length. simpl (8 - 8)%nat.
  rewrite firstn_O, app_nil_r, skipn_O.
  rewrite firstn_all2, skipn_all2 by (rewrite le_bytes_length; lia).
  rewrite app_nil_l, !signed64_le_bytes by assumption. reflexivity.
Qed.

Lemma dalloc_nil inp : dalloc inp [] = DOk tt inp [].
Proof. reflexivity. Qed.

Lemma read_visit_encode v rest :
  visit_repr v = true -> read_visit (encode_visit v ++ rest) [] = DOk v rest [].
Proof.
  destruct v as [vid u t [s ns]]. intros H.
  unfold visit_repr, in_range in H. cbn [visit_id url text time tv_sec tv_nsec] in H.
  rewrite !andb_true_iff, !Z.leb_le, !Z.ltb_lt in H.
  destruct H as [[[[[Hv1 Hv2] Hu] Ht] [Hs1 Hs2]] [Hn1 Hn2]].
  unfold encode_visit; cbn [visit_id url text time tv_sec tv_nsec]. rewrite <- !app_assoc.
  unfold read_visit, dbind at 1. rewrite dalloc_nil.
  unfold dbind at 1. rewrite fread_u32_le by lia.
  unfold dbind at 1. rewrite fread_u64_le by lia.
  unfold dbind at 1. rewrite dalloc_nil.
  unfold dbind at 1. rewrite fread_bytes_app by (rewrite ?Nat2Z.id; lia).
  unfold dbind at 1. rewrite fread_u64_le by lia.
  unfold dbind at 1. rewrite dalloc_nil.
  unfold dbind at 1. rewrite fread_bytes_app by (rewrite ?Nat2Z.id; lia).
  unfold dbind at 1. rewrite fread_timespec_le by lia.
  reflexivity.
Qed.

Lemma read_visits_encode vs j max slots kept rest :
  forallb visit_repr vs = true -> 0 <= j -> j + Z.of_nat (length vs) <= slots ->
  read_visits (length vs) j max slots kept (flat_map encode_visit vs ++ rest) [] =
  VOk (kept ++ firstn (Z.to_nat (max - j)) vs) rest [].
Proof.
  revert j kept. induction vs as [|v vs IH]; intros j kept Hr Hj Hs.
  - simpl. rewrite firstn_nil, app_nil_r. reflexivity.
  - simpl in Hr. apply andb_true_iff in Hr as [Hv Hr].
    cbn [length flat_map] in *. rewrite <- app_assoc. cbn [read_visits].
    rewrite read_visit_encode by exact Hv. cbv beta iota.
    destruct (Z.ltb_spec j max) as [Lt|Ge].
    + replace (j <? slots) with true by (symmetry; apply Z.ltb_lt; lia).
      rewrite IH by (auto; lia). rewrite <- app_assoc.
      replace (Z.to_nat (max - j)) with (S (Z.to_nat (max - (j + 1)))) by lia.
      reflexivity.
    + rewrite IH by (auto; lia).
      replace (Z.to_nat (max - j)) with O by lia.
      replace (Z.to_nat (max - (j + 1))) with O by lia.
      reflexivity.
Qed.

Lemma alloc_slots_small n : 0 <= n < 2 ^ 61 -> alloc_slots n = n.
Proof.
  intros B. unfold alloc_slots, size_max_mod.
  rewrite Z.mod_small by lia. apply Z.div_mul. lia.
Qed.

Lemma fread_u64_mod z rest al :
  fread_u64 (le_bytes 8 z ++ rest) al = DOk (z mod 2 ^ 64) rest al.
Proof.
  unfold fread_u64, dbind.
  rewrite fread_bytes_app by (rewrite ?le_bytes_length; reflexivity || lia).
  unfold dret. rewrite le_value_le_bytes. reflexivity.
Qed.

Lemma read_user_header_le uid vc rest :
  0 <= uid < 2 ^ 32 -> 0 <= vc < 2 ^ 64 ->
  read_user_header (le_bytes 4 uid ++ le_bytes 8 vc ++ rest) [] = DOk (uid, vc) rest [].
Proof.
  intros Bu Bv. unfold read_user_header.
  unfold dbind at 1. rewrite fread_u32_le by exact Bu.
  unfold dbind at 1. rewrite fread_u64_le by exact Bv.
  reflexivity.
Qed.

Lemma read_users_encode fus slots max acc rest :
  forallb user_repr fus = true -> Z.of_nat (length acc + length fus) <= slots ->
  read_users (length fus) slots max acc (flat_map encode_user fus ++ rest) [] =
  UOk (acc ++ map (decoded_user max) fus) rest [].
Proof.
  revert acc. induction fus as [|[uid vs] fus IH]; intros acc Hr Hs.
  - simpl. rewrite app_nil_r. reflexivity.
  - simpl in Hr. apply andb_true_iff in Hr as [Hu Hr].
    unfold user_repr, in_range in Hu. cbn [fst snd] in Hu.
    rewrite !andb_true_iff, Z.leb_le, !Z.ltb_lt in Hu.
    destruct Hu as [[[Hu1 Hu2] Hn] Hvs].
    cbn [length flat_map] in *. unfold encode_user. cbn [fst snd].
    rewrite <- !app_assoc. cbn [read_users].
    rewrite read_user_header_le by lia. cbv beta iota.
    replace (Z.of_nat (length acc) <? slots) with true by (symmetry; apply Z.ltb_lt; lia).
    rewrite alloc_slots_small by (destruct (Z.ltb_spec 0 (Z.of_nat (length vs))); lia).
    rewrite Nat2Z.id, read_visits_encode
      by (auto; destruct (Z.ltb_spec 0 (Z.of_nat (length vs))); lia).
    cbv beta iota. rewrite IH by (auto; rewrite length_app; simpl; lia).
    rewrite <- app_assoc, Z.sub_0_r. reflexivity.
Qed.

Lemma deserialize_encode stored fus p max :
  file_repr fus = true ->
  deserialize_manager [] (Some (encode_file stored fus)) p max =
  Ok (Some (mk_manager (map (decoded_user max) fus)
              (if 0 <? Z.of_nat (length fus) then Z.of_nat (length fus) else 10) max p), []).
Proof.
  unfold file_repr. rewrite andb_true_iff, Z.ltb_lt. intros [Hn Hr].
  unfold deserialize_manager, encode_file.
  unfold dbind at 1. rewrite dalloc_nil.
  unfold dbind at 1. rewrite dalloc_nil.
  unfold dbind at 1. rewrite fread_u64_mod.
  unfold dbind at 1. rewrite fread_u64_le by lia.
  unfold dbind at 1. rewrite dalloc_nil. unfold dret. cbv beta iota.
  rewrite alloc_slots_small by (destruct (Z.ltb_spec 0 (Z.of_nat (length fus))); lia).
  rewrite Nat2Z.id, <- (app_nil_r (flat_map encode_user fus)).
  rewrite read_users_encode
    by (auto; destruct (Z.ltb_spec 0 (Z.of_nat (length fus))); simpl; lia).
  reflexivity.
Qed.

Lemma serialize_visit_ok v :
  buffer_ok (url v) = true -> buffer_ok (text v) = true ->
  serialize_visit v = Some (encode_visit v).
Proof.
  unfold buffer_ok, serialize_visit, encode_visit.
  destruct (strlen (url v)) as [ul|]; [|discriminate].
  destruct (strlen (text v)) as [tl|]; [|discriminate].
  intros Hu Ht. apply Nat.eqb_eq in Hu, Ht.
  rewrite Hu, Ht, !firstn_all. reflexivity.
Qed.

Lemma serialize_visits_ok vs :
  forallb (fun v => buffer_ok (url v) && buffer_ok (text v)) vs = true ->
  serialize_visits vs = Some (flat_map encode_visit vs).
Proof.
  induction vs as [|v vs IH]; simpl; [reflexivity|].
  rewrite andb_true_iff, andb_true_iff. intros [[Hu Ht] Hr].
  rewrite serialize_visit_ok, IH by assumption. reflexivity.
Qed.

Lemma serialize_users_ok us :
  forallb (fun u => forallb (fun v => buffer_ok (url v) && buffer_ok (text v)) (visits u)) us
  = true ->
  serialize_users us = Some (flat_map encode_user (map (fun u => (user_id u, visits u)) us)).
Proof.
  induction us as [|u us IH]; simpl; [reflexivity|].
  rewrite andb_true_iff. intros [Hu Hr].
  rewrite serialize_visits_ok, IH by assumption. unfold encode_user. simpl.
  rewrite <- ?app_assoc. reflexivity.
Qed.

Lemma view_decoded max fus :
  map (fun u => (user_id u, visits u)) (map (decoded_user max) fus)
  = map (fun fu => (fst fu, firstn (Z.to_nat max) (snd fu))) fus.
Proof. rewrite map_map. reflexivity. Qed.

(** C4.  Saving a manager whose records hold at most [max_visits] visits
    each (with fields that fit the format and [strdup] strings) and creating
    a manager from the saved bytes with the same [max_visits] gives back
    the same records: same user ids, same visits in the same order, each
    with its id, url, text and timestamp. *)
Theorem roundtrip_same_visits m :
  manager_repr m = true ->
  exists bytes m',
    serialize_manager m = Ok bytes /\
    VisitManagerCreate [] (Some bytes) (path m) (max_visits m) = Ok (Some m') /\
    view m' = view m.
Proof.
  unfold manager_repr. rewrite andb_true_iff, Z.ltb_lt, forallb_forall. intros [Hn Hus].
  assert (Hser : serialize_users (users m) = Some (flat_map encode_user (view m))).
  { apply serialize_users_ok, forallb_forall. intros u Hu.
    specialize (Hus u Hu). rewrite !andb_true_iff in Hus. tauto. }
  assert (Hrepr : file_repr (view m) = true).
  { unfold file_repr, view. rewrite andb_true_iff, length_map, Z.ltb_lt. split; [exact Hn|].
    apply forallb_forall. intros fu Hfu. apply in_map_iff in Hfu as (u & <- & Hu).
    specialize (Hus u Hu). rewrite !andb_true_iff in Hus. tauto. }
  exists (encode_file (max_visits m) (view m)).
  eexists. split; [|split].
  - unfold serialize_manager, encode_file. rewrite Hser.
    unfold view. rewrite length_map. reflexivity.
  - unfold VisitManagerCreate. rewrite deserialize_encode by exact Hrepr. reflexivity.
  - unfold view at 1. cbn [users]. rewrite view_decoded. unfold view. rewrite map_map.
    apply map_ext_in. intros u Hu. cbn [fst snd]. f_equal.
    specialize (Hus u Hu). rewrite !andb_true_iff, Z.leb_le in Hus.
    apply firstn_all2. lia.
Qed.

(** C5.  Creating a manager from a file lays out its records exactly as
    stored, with the caller's [max_visits], whatever capacity bound the
    file stores; each user keeps the first [max_visits] of its stored
    visits in file order, and the skipped visits do not disturb the
    reading of the users after it. *)
Theorem create_keeps_first_in_file_order fus p max :
  file_repr fus = true ->
  exists m,
    (forall stored, VisitManagerCreate [] (Some (encode_file stored fus)) p max = Ok (Some m)) /\
    max_visits m = max /\
    view m = map (fun fu => (fst fu, firstn (Z.to_nat max) (snd fu))) fus.
Proof.
  intros Hr. eexists. split; [|split].
  - intros stored. unfold VisitManagerCreate. rewrite deserialize_encode by exact Hr.
    reflexivity.
  - reflexivity.
  - apply view_decoded.
Qed.

Lemma roundtrip_same_visits_witness :
  manager_repr m_one = true /\
  exists bytes m',
    serialize_manager m_one = Ok bytes /\
    VisitManagerCreate [] (Some bytes) (path m_one) (max_visits m_one) = Ok (Some m') /\
    view m' = view m_one.
Proof.
  assert (H : manager_repr m_one = true) by reflexivity.
  split; [exact H | exact (roundtrip_same_visits m_one H)].
Defined.

Lemma create_keeps_first_in_file_order_witness :
  file_repr fus_three = true /\
  exists m,
    (forall stored, VisitManagerCreate [] (Some (encode_file stored fus_three)) "rv.dat" 2
                    = Ok (Some m)) /\
    max_visits m = 2 /\
    view m = [(1, [visit_at 8 50; visit_at 7 100]); (2, [visit_at 5 10])].
Proof.
  assert (H : file_repr fus_three = true) by reflexivity.
  split; [exact H|].
  exact (create_keeps_first_in_file_order fus_three "rv.dat" 2 H).
Defined.

(** * Further properties of the code *)

(** ** [compare_visits] as a three-way comparison *)

Theorem compare_visits_three_way h a b :
  Layout.compare_visits h a b = - Layout.compare_visits h b a /\
  (Layout.compare_visits h a b = 0 <-> time_at h a = time_at h b) /\
  (Layout.compare_visits h a b = -1 <-> ts_ltb (time_at h b) (time_at h a) = true) /\
  (Layout.compare_visits h a b = 1 <-> ts_ltb (time_at h a) (time_at h b) = true).
Proof.
  assert (E : time_at h a = time_at h b <->
              Layout.tv_sec_at h a = Layout.tv_sec_at h b /\
              Layout.tv_nsec_at h a = Layout.tv_nsec_at h b).
  { unfold time_at. split; [intros Ht; injection Ht; auto | intros [-> ->]; reflexivity]. }
  rewrite E. unfold Layout.compare_visits, ts_ltb, time_at; cbn [tv_sec tv_nsec].
  set (s1 := Layout.tv_sec_at h a). set (s2 := Layout.tv_sec_at h b).
  set (n1 := Layout.tv_nsec_at h a). set (n2 := Layout.tv_nsec_at h b).
  repeat match goal with
  | |- context [?x >? ?y] => destruct (Z.gtb_spec x y)
  | |- context [?x <? ?y] => destruct (Z.ltb_spec x y)
  | |- context [?x =? ?y] => destruct (Z.eqb_spec x y)
  end; simpl; intuition (try lia; try discriminate).
Qed.



(** ** The eviction scan picks the first of the oldest visits *)

Lemma ts_lt_trans a b c : ts_ltb a b = true -> ts_ltb b c = true -> ts_ltb a c = true.
Proof. ts_cases. Qed.

Lemma ts_lt_not_lt a b c : ts_ltb a b = true -> ts_ltb c b = false -> ts_ltb a c = true.
Proof. ts_cases. Qed.

Lemma oldest_loop_first (l pre vs : list Visit) (i oi : nat) (ot : timespec) :
  l = pre ++ vs -> length pre = i -> (oi < i)%nat ->
  (forall d, time (nth oi l d) = ot) ->
  (forall j d, (j < oi)%nat -> ts_ltb ot (time (nth j l d)) = true) ->
  (forall j d, (oi < j < i)%nat -> ts_ltb (time (nth j l d)) ot = false) ->
  forall j d, (j < oldest_loop vs i oi ot)%nat ->
  ts_ltb (time (nth (oldest_loop vs i oi ot) l d)) (time (nth j l d)) = true.
Proof.
  revert pre i oi ot.
  induction vs as [|v vs IH]; intros pre i oi ot Hl Hi Hoi Hot Hbefore Hbetween; simpl.
  - intros j d Hj. rewrite Hot. apply Hbefore. exact Hj.
  - assert (Hv : forall d, nth i l d = v).
    { intros d. subst l. rewrite app_nth2 by lia. rewrite Hi, Nat.sub_diag. reflexivity. }
    destruct (ts_ltb (time v) ot) eqn:Hlt.
    + apply (IH (pre ++ [v]) (S i) i (time v)).
      * rewrite <- app_assoc. exact Hl.
      * rewrite length_app. simpl. lia.
      * lia.
      * intros d. rewrite Hv. reflexivity.
      * intros j d Hj.
        destruct (Nat.lt_trichotomy j oi) as [Hj'|[Hj'|Hj']].
        -- apply (ts_lt_trans _ ot); [exact Hlt | apply Hbefore; exact Hj'].
        -- subst j. rewrite Hot. exact Hlt.
        -- apply (ts_lt_not_lt _ ot); [exact Hlt | apply Hbetween; lia].
      * intros j d Hj. lia.
    + apply (IH (pre ++ [v]) (S i) oi ot).
      * rewrite <- app_assoc. exact Hl.
      * rewrite length_app. simpl. lia.
      * lia.
      * exact Hot.
      * exact Hbefore.
      * intros j d Hj. destruct (Nat.eq_dec j i) as [->|Hne].
        -- rewrite Hv. exact Hlt.
        -- apply Hbetween. lia.
Qed.

(** The visit [AddVisit] evicts from a full record (index [k] of the scan)
    is one no visit of the record is older than, and every visit stored
    before it is strictly newer: among visits with the oldest timestamp
    the first one in the array is evicted. *)
Theorem evict_first_oldest vs k :
  oldest_index vs = Some k ->
  (k < length vs)%nat /\
  (forall d w, In w vs -> ts_ltb (time w) (time (nth k vs d)) = false) /\
  (forall j d, (j < k)%nat -> ts_ltb (time (nth k vs d)) (time (nth j vs d)) = true).
Proof.
  intros H. destruct (oldest_index_spec vs k H) as [Hk Hmin].
  split; [exact Hk|]. split; [exact Hmin|].
  destruct vs as [|v vs]; [discriminate|]. simpl in H. injection H as <-.
  apply (oldest_loop_first (v :: vs) [v] vs 1 0 (time v)); auto; intros; lia.
Qed.

Lemma evict_first_oldest_witness :
  oldest_index [visit_at 8 100; visit_at 7 50; visit_at 6 50] = Some 1%nat /\
  (forall j d, (j < 1)%nat ->
     ts_ltb (time (nth 1 [visit_at 8 100; visit_at 7 50; visit_at 6 50] d))
            (time (nth j [visit_at 8 100; visit_at 7 50; visit_at 6 50] d)) = true).
Proof.
  assert (H : oldest_index [visit_at 8 100; visit_at 7 50; visit_at 6 50] = Some 1%nat)
    by reflexivity.
  split; [exact H|]. exact (proj2 (proj2 (evict_first_oldest _ _ H))).
Defined.

(** ** What [AddVisit] leaves alone *)

Lemma map_user_id_set_user us u : map user_id (set_user us u) = map user_id us.
Proof.
  induction us as [|u' us IH]; simpl; [reflexivity|].
  destruct (Z.eqb_spec (user_id u') (user_id u)) as [E|E]; simpl; congruence.
Qed.

Lemma find_user_app_none us u uid :
  find_user us uid = None -> find_user (us ++ [u]) uid = if user_id u =? uid then Some u else None.
Proof.
  induction us as [|u' us IH]; simpl; [reflexivity|].
  destruct (user_id u' =? uid); [discriminate|]. exact IH.
Qed.

Lemma find_user_app_other us u uid :
  user_id u <> uid -> find_user (us ++ [u]) uid = find_user us uid.
Proof.
  intros Hne. induction us as [|u' us IH]; simpl.
  - replace (user_id u =? uid) with false by (symmetry; apply Z.eqb_neq; exact Hne).
    reflexivity.
  - destruct (user_id u' =? uid); [reflexivity | exact IH].
Qed.

Lemma find_or_create_frame al m uid r :
  find_or_create al m uid = Ok r ->
  match r with
  | inl m1 => users m1 = users m /\ max_visits m1 = max_visits m /\ path m1 = path m
  | inr (usr, m1, _) =>
      user_id usr = uid /\ find_user (users m1) uid = Some usr /\
      max_visits m1 = max_visits m /\ path m1 = path m /\
      (users m1 = users m \/
       (find_user (users m) uid = None /\ usr = mk_user uid [] (max_visits m) /\
        users m1 = users m ++ [usr]))
  end.
Proof.
  intros H. unfold find_or_create in H.
  destruct (find_user (users m) uid) as [u|] eqn:Hf.
  - injection H as <-. destruct (find_user_some _ _ _ Hf) as [Hid _]. auto 6.
  - repeat (cbn in H; match type of H with
      | context [next_alloc ?x] => destruct (next_alloc x) as [[|] ?]
      | context [if ?c then _ else _] => destruct c
      end);
    try discriminate; injection H as <-; cbn; try (repeat split; reflexivity);
    (split; [reflexivity|]; split;
     [rewrite find_user_app_none by exact Hf; rewrite Z.eqb_refl; reflexivity|];
     split; [reflexivity|]; split; [reflexivity|]; right; auto).
Qed.

(** The manager an [AddVisit] returns is the one [find_or_create] left, or
    that one with the user's record rewritten. *)
Lemma add_visit_shape al now m uid vid u t b m' :
  VisitManagerAddVisit al now m uid vid (Some u) (Some t) = Ok (b, m') ->
  exists r, find_or_create al m uid = Ok r /\
  match r with
  | inl m1 => m' = m1
  | inr (usr, m1, _) =>
      m' = m1 \/ exists vs c, m' = update_user m1 (mk_user (user_id usr) vs c)
  end.
Proof.
  intros H. unfold VisitManagerAddVisit in H.
  destruct (find_or_create al m uid) as [r|]; [|discriminate].
  exists r. split; [reflexivity|].
  destruct r as [m1|[[usr m1] al1]]; [injection H as _ <-; reflexivity|].
  destruct (existsb _ _); [injection H as _ <-; left; reflexivity|].
  destruct (create_visit al1 vid u t now) as [[v|] al2]; [|injection H as _ <-; left; reflexivity].
  destruct (evict_oldest (max_visits m1) (visits usr)) as [vs1|]; [|discriminate].
  right. unfold append_visit in H.
  destruct (_ >=? capacity usr).
  - destruct (next_alloc al2) as [[|] al3].
    + destruct (_ <? _); [|discriminate]. injection H as _ <-. eauto.
    + injection H as _ <-. eauto.
  - destruct (_ <? _); [|discriminate]. injection H as _ <-. eauto.
Qed.

(** Whatever it returns, [AddVisit] for user [uid] keeps [max_visits] and
    the path, leaves the record of every other user as it was, and changes
    the list of user ids at most by appending [uid] when [uid] was unknown. *)
Theorem add_visit_frame al now m uid vid u t b m' :
  VisitManagerAddVisit al now m uid vid (Some u) (Some t) = Ok (b, m') ->
  max_visits m' = max_visits m /\ path m' = path m /\
  (forall uid', uid' <> uid -> find_user (users m') uid' = find_user (users m) uid') /\
  (map user_id (users m') = map user_id (users m) \/
   (find_user (users m) uid = None /\
    map user_id (users m') = map user_id (users m) ++ [uid])).
Proof.
  intros H. destruct (add_visit_shape _ _ _ _ _ _ _ _ _ H) as [r [Hr Hm']].
  apply find_or_create_frame in Hr.
  destruct r as [m1|[[usr m1] al1]].
  - destruct Hr as [Hu [Hmax Hp]]. subst m'. rewrite Hu. auto.
  - destruct Hr as [Hid [Hf1 [Hmax [Hp Hus]]]].
    assert (Hbase : max_visits m1 = max_visits m /\ path m1 = path m /\
      (forall uid', uid' <> uid -> find_user (users m1) uid' = find_user (users m) uid') /\
      (map user_id (users m1) = map user_id (users m) \/
       (find_user (users m) uid = None /\
        map user_id (users m1) = map user_id (users m) ++ [uid]))).
    { split; [exact Hmax|]. split; [exact Hp|].
      destruct Hus as [Hus | (Hnone & Husr & Hus)]; rewrite Hus.
      - split; [reflexivity|]. left. reflexivity.
      - split.
        + intros uid' Hne. apply find_user_app_other. congruence.
        + right. split; [exact Hnone|]. rewrite map_app. subst usr. reflexivity. }
    destruct Hm' as [-> | (vs & c & ->)]; [exact Hbase|].
    destruct Hbase as [Hmax1 [Hp1 [Hoth Hids]]].
    unfold update_user; cbn [users max_visits path].
    split; [exact Hmax1|]. split; [exact Hp1|]. split.
    + intros uid' Hne. rewrite find_user_set_user_other by (simpl; congruence).
      apply Hoth. exact Hne.
    + rewrite map_user_id_set_user. exact Hids.
Qed.

Lemma add_visit_frame_witness :
  VisitManagerAddVisit [] (mk_timespec 300 0) m_full 1 9 (Some s_a) (Some s_a)
  = Ok (true, m_full_after) /\
  (forall uid', uid' <> 1 -> find_user (users m_full_after) uid' = find_user (users m_full) uid').
Proof.
  assert (H : VisitManagerAddVisit [] (mk_timespec 300 0) m_full 1 9 (Some s_a) (Some s_a)
              = Ok (true, m_full_after)) by reflexivity.
  split; [exact H|]. exact (proj1 (proj2 (proj2 (add_visit_frame _ _ _ _ _ _ _ _ _ H)))).
Defined.

(** ** Where [AddVisit] puts a new visit *)

Lemma set_user_app_new us u0 u :
  find_user us (user_id u) = None -> user_id u0 = user_id u ->
  set_user (us ++ [u0]) u = us ++ [u].
Proof.
  intros Hn Hid. induction us as [|x us IH]; simpl in *.
  - rewrite Hid, Z.eqb_refl. reflexivity.
  - destruct (user_id x =? user_id u); [discriminate|]. rewrite IH by exact Hn. reflexivity.
Qed.

Lemma existsb_id_false vs vid :
  ~ In vid (map visit_id vs) -> existsb (fun v => visit_id v =? vid) vs = false.
Proof.
  intros Hnin. apply Bool.not_true_iff_false. intros Hex.
  apply existsb_exists in Hex. destruct Hex as [v [Hv Hv']].
  apply Hnin, in_map_iff. exists v. split; [apply Z.eqb_eq|]; assumption.
Qed.

(** A successful [AddVisit] for an unknown user appends a record for it
    after all existing records, holding the one new visit (copies of the
    strings, stamped with the current time) and room for [max_visits]
    visits; it can only succeed when [max_visits > 0]. *)
Theorem add_visit_new_user al now m uid vid u t m' :
  find_user (users m) uid = None ->
  VisitManagerAddVisit al now m uid vid (Some u) (Some t) = Ok (true, m') ->
  0 < max_visits m /\
  users m' = users m ++ [mk_user uid [mk_visit vid (strdup_buf u) (strdup_buf t) now]
                            (max_visits m)].
Proof.
  intros Hf H. unfold VisitManagerAddVisit in H.
  destruct (find_or_create al m uid) as [r|] eqn:Efc; [|discriminate].
  apply find_or_create_frame in Efc.
  destruct r as [m1|[[usr m1] al1]]; [discriminate|].
  destruct Efc as [Hid [Hf1 [Hmax [_ [Hus | (_ & -> & Hus)]]]]].
  { rewrite Hus, Hf in Hf1. discriminate. }
  cbn [visits existsb] in H.
  destruct (create_visit al1 vid u t now) as [[v|] al2] eqn:Hcv; [|discriminate].
  apply create_visit_some in Hcv. subst v.
  unfold evict_oldest in H. cbn [length Z.of_nat] in H. rewrite Hmax in H.
  destruct (0 >=? max_visits m) eqn:Hz; [discriminate|].
  cbn [capacity user_id length Z.of_nat] in H. rewrite Hz in H.
  rewrite Z.geb_leb in Hz. apply Z.leb_gt in Hz.
  apply append_visit_ok in H. subst m'. split; [lia|].
  unfold update_user; cbn [users visits capacity user_id]. rewrite Hus.
  apply set_user_app_new; [exact Hf | reflexivity].
Qed.

Lemma add_visit_new_user_witness :
  find_user (users (mk_manager [] 10 5 "rv.dat")) 1 = None /\
  VisitManagerAddVisit [] (mk_timespec 100 0) (mk_manager [] 10 5 "rv.dat") 1 1
    (Some s_a) (Some s_a)
  = Ok (true, mk_manager [mk_user 1 [mk_visit 1 (strdup_buf s_a) (strdup_buf s_a)
                                       (mk_timespec 100 0)] 5] 10 5 "rv.dat") /\
  0 < 5.
Proof.
  assert (H1 : find_user (users (mk_manager [] 10 5 "rv.dat")) 1 = None) by reflexivity.
  assert (H2 : VisitManagerAddVisit [] (mk_timespec 100 0) (mk_manager [] 10 5 "rv.dat") 1 1
                 (Some s_a) (Some s_a)
               = Ok (true, mk_manager [mk_user 1 [mk_visit 1 (strdup_buf s_a) (strdup_buf s_a)
                                       (mk_timespec 100 0)] 5] 10 5 "rv.dat"))
    by reflexivity.
  split; [exact H1|]. split; [exact H2|].
  exact (proj1 (add_visit_new_user _ _ _ _ _ _ _ _ H1 H2)).
Defined.

(** A successful [AddVisit] of a new visit id for a known user holding
    fewer than [max_visits] visits evicts nothing: the record becomes its
    old visits, in the same order, followed by the new visit. *)
Theorem add_visit_appends al now m uid vid u t usr m' :
  find_user (users m) uid = Some usr ->
  ~ In vid (map visit_id (visits usr)) ->
  Z.of_nat (length (visits usr)) < max_visits m ->
  VisitManagerAddVisit al now m uid vid (Some u) (Some t) = Ok (true, m') ->
  exists u', find_user (users m') uid = Some u' /\
    visits u' = visits usr ++ [mk_visit vid (strdup_buf u) (strdup_buf t) now].
Proof.
  intros Hf Hnin Hlt H.
  pose proof (find_user_some _ _ _ Hf) as [Hid _].
  unfold VisitManagerAddVisit in H. rewrite (find_or_create_found al m uid usr Hf) in H.
  rewrite existsb_id_false in H by exact Hnin.
  destruct (create_visit al vid u t now) as [[v|] al2] eqn:Hcv; [|discriminate].
  apply create_visit_some in Hcv. subst v.
  unfold evict_oldest in H.
  replace (Z.of_nat (length (visits usr)) >=? max_visits m) with false in H
    by (symmetry; rewrite Z.geb_leb; apply Z.leb_gt; exact Hlt).
  set (nv := mk_visit vid (strdup_buf u) (strdup_buf t) now) in *.
  assert (Hm' : exists c, m' = update_user m (mk_user (user_id usr) (visits usr ++ [nv]) c)).
  { destruct (_ >=? capacity usr).
    - destruct (next_alloc al2) as [[|] al3]; [|discriminate].
      apply append_visit_ok in H. eexists. exact H.
    - apply append_visit_ok in H. eexists. exact H. }
  destruct Hm' as [c ->].
  exists (mk_user (user_id usr) (visits usr ++ [nv]) c). split; [|reflexivity].
  unfold update_user; cbn [users].
  pose proof (find_user_set_user_same (users m) usr
                (mk_user (user_id usr) (visits usr ++ [nv]) c)) as X.
  cbn [user_id] in X. rewrite Hid in X |- *. exact (X Hf).
Qed.

Lemma add_visit_appends_witness :
  find_user (users m_one) 1 = Some (mk_user 1 [visit_a] 5) /\
  ~ In 8 (map visit_id (visits (mk_user 1 [visit_a] 5))) /\
  Z.of_nat (length (visits (mk_user 1 [visit_a] 5))) < max_visits m_one /\
  VisitManagerAddVisit [] (mk_timespec 200 0) m_one 1 8 (Some s_a) (Some s_a)
  = Ok (true, mk_manager [mk_user 1 [visit_a; mk_visit 8 (strdup_buf s_a) (strdup_buf s_a)
                                      (mk_timespec 200 0)] 5] 10 5 "rv.dat") /\
  exists u', find_user (users (mk_manager [mk_user 1 [visit_a; mk_visit 8 (strdup_buf s_a)
                                 (strdup_buf s_a) (mk_timespec 200 0)] 5] 10 5 "rv.dat")) 1
             = Some u' /\
    visits u' = visits (mk_user 1 [visit_a] 5)
                ++ [mk_visit 8 (strdup_buf s_a) (strdup_buf s_a) (mk_timespec 200 0)].
Proof.
  assert (H1 : find_user (users m_one) 1 = Some (mk_user 1 [visit_a] 5)) by reflexivity.
  assert (H2 : ~ In 8 (map visit_id (visits (mk_user 1 [visit_a] 5))))
    by (simpl; intros [H|[]]; discriminate).
  assert (H3 : Z.of_nat (length (visits (mk_user 1 [visit_a] 5))) < max_visits m_one)
    by (simpl; lia).
  assert (H4 : VisitManagerAddVisit [] (mk_timespec 200 0) m_one 1 8 (Some s_a) (Some s_a)
    = Ok (true, mk_manager [mk_user 1 [visit_a; mk_visit 8 (strdup_buf s_a) (strdup_buf s_a)
                                      (mk_timespec 200 0)] 5] 10 5 "rv.dat"))
    by reflexivity.
  split; [exact H1|]. split; [exact H2|]. split; [exact H3|]. split; [exact H4|].
  exact (add_visit_appends _ _ _ _ _ _ _ _ _ H1 H2 H3 H4).
Defined.

(** ** An invariant kept by every operation when [max_visits >= 1] *)

Lemma user_ok_spec max u : user_ok max u = true <-> user_inv max u.
Proof.
  unfold user_ok, user_inv. rewrite !andb_true_iff, !Z.ltb_lt, !Z.leb_le. tauto.
Qed.

Lemma manager_ok_spec m :
  manager_ok m = true <->
  1 <= max_visits m < 2 ^ 61 /\ 0 < user_capacity m /\
  Z.of_nat (length (users m)) <= user_capacity m /\
  Forall (user_inv (max_visits m)) (users m).
Proof.
  unfold manager_ok. rewrite !andb_true_iff, !Z.ltb_lt, !Z.leb_le, forallb_forall,
    Forall_forall.
  split.
  - intros [[[[H1 H2] H3] H4] H5]. split; [lia|]. split; [exact H3|]. split; [exact H4|].
    intros u Hu. apply user_ok_spec. auto.
  - intros [[H1 H2] [H3 [H4 H5]]].
    refine (conj (conj (conj (conj _ _) _) _) _); try lia.
    intros u Hu. apply user_ok_spec. auto.
Qed.

Lemma Forall_set_user (P : UserVisits -> Prop) us u :
  Forall P us -> P u -> Forall P (set_user us u).
Proof.
  intros Hall Hu. induction Hall as [|x us Hx Hall IH]; simpl; [constructor|].
  destruct (user_id x =? user_id u); constructor; auto.
Qed.

Lemma length_set_user us u : length (set_user us u) = length us.
Proof.
  induction us as [|x us IH]; simpl; [reflexivity|].
  destruct (user_id x =? user_id u); simpl; auto.
Qed.

Lemma update_user_ok m u :
  manager_ok m = true -> user_inv (max_visits m) u -> manager_ok (update_user m u) = true.
Proof.
  rewrite !manager_ok_spec. unfold update_user; cbn [users max_visits user_capacity].
  rewrite length_set_user. intros (H1 & H2 & H3 & H4) Hu.
  split; [exact H1|]. split; [exact H2|]. split; [exact H3|].
  apply Forall_set_user; auto.
Qed.

Lemma find_or_create_ok al m uid :
  manager_ok m = true -> user_capacity m < 2 ^ 60 ->
  exists r, find_or_create al m uid = Ok r /\
  match r with
  | inl m1 => manager_ok m1 = true
  | inr (usr, m1, _) => manager_ok m1 = true /\ user_inv (max_visits m1) usr
  end.
Proof.
  intros Hok Huc. pose proof Hok as Hok'. rewrite manager_ok_spec in Hok'.
  destruct Hok' as ([Hm1 Hm2] & Hu0 & Hlen & Hall).
  unfold find_or_create.
  destruct (find_user (users m) uid) as [u|] eqn:Hf.
  { eexists. split; [reflexivity|]. split; [exact Hok|].
    rewrite Forall_forall in Hall. apply Hall. exact (proj2 (find_user_some _ _ _ Hf)). }
  assert (Hnew : user_inv (max_visits m) (mk_user uid [] (max_visits m)))
    by (unfold user_inv; simpl; lia).
  destruct (Z.of_nat (length (users m)) >=? user_capacity m) eqn:Hg.
  - rewrite Z.geb_le in Hg.
    replace ((user_capacity m * 2) mod size_max_mod) with (user_capacity m * 2)
      by (unfold size_max_mod; symmetry; apply Z.mod_small; lia).
    destruct (next_alloc al) as [[|] al1].
    + destruct (next_alloc al1) as [[|] al2].
      * destruct (next_alloc al2) as [[|] al3]; cbn [users user_capacity max_visits path].
        -- rewrite alloc_slots_small by lia.
           replace (Z.of_nat (length (users m)) <? user_capacity m * 2) with true
             by (symmetry; apply Z.ltb_lt; lia).
           eexists. split; [reflexivity|]. split; [|exact Hnew].
           apply manager_ok_spec; cbn [users max_visits user_capacity].
           rewrite length_app. simpl length.
           repeat split; try lia. apply Forall_app. split; [exact Hall|].
           constructor; [exact Hnew | constructor].
        -- eexists. split; [reflexivity|]. apply manager_ok_spec; simpl.
           repeat split; auto; lia.
      * eexists. split; [reflexivity|]. apply manager_ok_spec; simpl.
        repeat split; auto; lia.
    + eexists. split; [reflexivity|]. exact Hok.
  - rewrite Z.geb_leb in Hg. apply Z.leb_gt in Hg.
    destruct (next_alloc al) as [[|] al1].
    + destruct (next_alloc al1) as [[|] al2].
      * rewrite alloc_slots_small by lia.
        replace (Z.of_nat (length (users m)) <? user_capacity m) with true
          by (symmetry; apply Z.ltb_lt; lia).
        eexists. split; [reflexivity|]. split; [|exact Hnew].
        apply manager_ok_spec; cbn [users max_visits user_capacity].
        rewrite length_app. simpl length.
        repeat split; try lia. apply Forall_app. split; [exact Hall|].
        constructor; [exact Hnew | constructor].
      * eexists. split; [reflexivity|]. exact Hok.
    + eexists. split; [reflexivity|]. exact Hok.
Qed.

Lemma add_visit_invariant_step al now m uid vid u t :
  manager_ok m = true -> user_capacity m < 2 ^ 60 ->
  exists b m', VisitManagerAddVisit al now m uid vid (Some u) (Some t) = Ok (b, m') /\
               manager_ok m' = true.
Proof.
  intros Hok Huc.
  destruct (find_or_create_ok al m uid Hok Huc) as [r [Hr Hr']].
  unfold VisitManagerAddVisit. rewrite Hr.
  destruct r as [m1|[[usr m1] al1]].
  { exists false, m1. split; [reflexivity | exact Hr']. }
  destruct Hr' as [Hok1 Hu]. pose proof Hok1 as Hs. rewrite manager_ok_spec in Hs.
  destruct Hs as ([Hm1 Hm2] & _).
  destruct Hu as ([Hc1 Hc2] & Hnc & Hnm).
  destruct (existsb _ (visits usr)).
  { exists true, m1. split; [reflexivity | exact Hok1]. }
  destruct (create_visit al1 vid u t now) as [[v|] al2].
  2: { exists false, m1. split; [reflexivity | exact Hok1]. }
  unfold evict_oldest.
  destruct (Z.of_nat (length (visits usr)) >=? max_visits m1) eqn:Hge.
  - apply Z.geb_le in Hge.
    assert (Hk : exists k, oldest_index (visits usr) = Some k).
    { destruct (visits usr) as [|v0 vs0]; [simpl in Hge; lia|]. eexists. reflexivity. }
    destruct Hk as [k Hk]. rewrite Hk.
    cbv beta iota. rewrite swap_remove_length.
    replace (Z.of_nat (pred (length (visits usr))) >=? capacity usr) with false
      by (symmetry; rewrite Z.geb_leb; apply Z.leb_gt; lia).
    unfold append_visit; cbn [visits capacity user_id].
    rewrite alloc_slots_small by lia. rewrite swap_remove_length.
    replace (Z.of_nat (pred (length (visits usr))) <? capacity usr) with true
      by (symmetry; apply Z.ltb_lt; lia).
    eexists _, _. split; [reflexivity|].
    apply update_user_ok; [exact Hok1|].
    unfold user_inv; cbn [visits capacity].
    rewrite length_app, swap_remove_length. simpl length. lia.
  - rewrite Z.geb_leb in Hge. apply Z.leb_gt in Hge. cbv beta iota.
    destruct (Z.of_nat (length (visits usr)) >=? capacity usr) eqn:Hgc.
    + apply Z.geb_le in Hgc.
      replace ((capacity usr * 2) mod size_max_mod) with (capacity usr * 2)
        by (unfold size_max_mod; symmetry; apply Z.mod_small; lia).
      destruct (next_alloc al2) as [[|] al3].
      * unfold append_visit; cbn [visits capacity user_id].
        rewrite alloc_slots_small by lia.
        replace (Z.of_nat (length (visits usr)) <? Z.min (capacity usr * 2) (max_visits m1))
          with true by (symmetry; apply Z.ltb_lt; lia).
        eexists _, _. split; [reflexivity|].
        apply update_user_ok; [exact Hok1|].
        unfold user_inv; cbn [visits capacity]. rewrite length_app. simpl length. lia.
      * eexists _, _. split; [reflexivity|].
        apply update_user_ok; [exact Hok1|].
        unfold user_inv; cbn [visits capacity]. lia.
    + rewrite Z.geb_leb in Hgc. apply Z.leb_gt in Hgc.
      unfold append_visit; cbn [visits capacity user_id].
      rewrite alloc_slots_small by lia.
      replace (Z.of_nat (length (visits usr)) <? capacity usr) with true
        by (symmetry; apply Z.ltb_lt; lia).
      eexists _, _. split; [reflexivity|].
      apply update_user_ok; [exact Hok1|].
      unfold user_inv; cbn [visits capacity]. rewrite length_app. simpl length. lia.
Qed.



Lemma delete_id_length vs id : (length (snd (delete_id vs id)) <= length vs)%nat.
Proof.
  unfold delete_id. destruct (find_index _ vs); simpl; [rewrite swap_remove_length|]; lia.
Qed.

Lemma delete_ids_length l vs f : (length (snd (delete_ids l vs f)) <= length vs)%nat.
Proof.
  revert vs f. induction l as [|id l IH]; intros vs f; simpl; [lia|].
  pose proof (delete_id_length vs id) as H.
  destruct (delete_id vs id) as [b vs']. simpl in H.
  specialize (IH vs' (f || b)). lia.
Qed.

Lemma other_ops_invariant_step m uid :
  manager_ok m = true ->
  manager_ok (VisitManagerClear m uid) = true /\
  (forall ids r m', VisitManagerDelete (Some m) uid ids = (r, m') ->
     exists m1, m' = Some m1 /\ manager_ok m1 = true) /\
  (forall sort : list Visit -> list Visit, (forall vs, length (sort vs) = length vs) ->
     forall a c m', VisitManagerGetRecentVisits sort m uid = (a, c, m') ->
     manager_ok m' = true).
Proof.
  intros Hok. pose proof Hok as Hs. rewrite manager_ok_spec in Hs.
  destruct Hs as (Hmax & _ & _ & Hall). rewrite Forall_forall in Hall.
  assert (Hu : forall u, find_user (users m) uid = Some u -> user_inv (max_visits m) u)
    by (intros u Hf; apply Hall; exact (proj2 (find_user_some _ _ _ Hf))).
  split; [|split].
  - unfold VisitManagerClear. destruct (find_user (users m) uid) as [u|] eqn:Hf; [|exact Hok].
    apply update_user_ok; [exact Hok|].
    destruct (Hu u eq_refl) as (Hc & _). unfold user_inv; cbn [visits capacity length]. lia.
  - intros ids r m' H. unfold VisitManagerDelete in H.
    destruct ids as [[|id l]|]; try (injection H as _ <-; eauto).
    destruct (find_user (users m) uid) as [u|] eqn:Hf; [|injection H as _ <-; eauto].
    pose proof (delete_ids_length (id :: l) (visits u) false) as Hlen.
    destruct (delete_ids (id :: l) (visits u) false) as [fa vs'].
    injection H as _ <-. eexists. split; [reflexivity|].
    apply update_user_ok; [exact Hok|].
    destruct (Hu u eq_refl) as (Hc & Hn1 & Hn2). simpl in Hlen.
    unfold user_inv; cbn [visits capacity]. lia.
  - intros sort Hsort a c m' H. unfold VisitManagerGetRecentVisits in H.
    destruct (find_user (users m) uid) as [u|] eqn:Hf; [injection H as _ _ <- | injection H as _ _ <-; exact Hok].
    apply update_user_ok; [exact Hok|].
    destruct (Hu u eq_refl) as (Hc & Hn1 & Hn2).
    unfold user_inv; cbn [visits capacity]. rewrite Hsort. lia.
Qed.

(** [Clear], [Delete] and [GetRecentVisits] (with any in-place sort that
    keeps the number of elements) keep the invariant: they never make a
    record hold more than [max_visits] visits or more than its array has
    room for. *)
Theorem other_ops_keep_invariant m uid :
  manager_ok m = true ->
  manager_ok (VisitManagerClear m uid) = true /\
  (forall ids r m', VisitManagerDelete (Some m) uid ids = (r, m') ->
     exists m1, m' = Some m1 /\ manager_ok m1 = true) /\
  (forall sort : list Visit -> list Visit, (forall vs, length (sort vs) = length vs) ->
     forall a c m', VisitManagerGetRecentVisits sort m uid = (a, c, m') ->
     manager_ok m' = true).
Proof. exact (other_ops_invariant_step m uid). Qed.

Lemma other_ops_keep_invariant_witness :
  manager_ok m_full = true /\
  manager_ok (VisitManagerClear m_full 1) = true.
Proof.
  assert (H : manager_ok m_full = true) by reflexivity.
  split; [exact H|]. exact (proj1 (other_ops_keep_invariant m_full 1 H)).
Defined.

Lemma alloc_slots_nonneg n : 0 <= alloc_slots n.
Proof.
  unfold alloc_slots, size_max_mod.
  apply Z.div_pos; [apply Z.mod_pos_bound|]; lia.
Qed.

Lemma fresh_manager_some al p max m :
  fresh_manager al p max = Some m -> m = mk_manager [] 10 max p.
Proof.
  unfold fresh_manager.
  destruct (next_alloc al) as [[|] al1]; [|discriminate].
  destruct (next_alloc al1) as [[|] al2]; [|discriminate].
  destruct (next_alloc al2) as [[|] al3]; [|discriminate].
  congruence.
Qed.

Lemma read_visits_bound n j max slots kept inp al kept' inp' al' :
  Z.of_nat (length kept) <= j -> Z.of_nat (length kept) <= max ->
  Z.of_nat (length kept) <= slots ->
  read_visits n j max slots kept inp al = VOk kept' inp' al' ->
  Z.of_nat (length kept') <= max /\ Z.of_nat (length kept') <= slots.
Proof.
  revert j kept inp al. induction n as [|n IH]; intros j kept inp al H1 H2 H3 H.
  - injection H as <- _ _. auto.
  - cbn [read_visits] in H.
    destruct (read_visit inp al) as [v inp1 al1|al1]; [|discriminate].
    destruct (Z.ltb_spec j max).
    + destruct (Z.ltb_spec j slots); [|discriminate].
      refine (IH _ _ _ _ _ _ _ H); rewrite length_app; cbn [length]; lia.
    + refine (IH _ _ _ _ _ H2 H3 H); lia.
Qed.

Lemma read_users_bound n slots max acc inp al us inp' al' :
  0 <= max -> Z.of_nat (length acc) <= slots -> Forall (bounded_user max) acc ->
  read_users n slots max acc inp al = UOk us inp' al' ->
  Z.of_nat (length us) <= slots /\ Forall (bounded_user max) us.
Proof.
  revert acc inp al. induction n as [|n IH]; intros acc inp al Hm Hs Ha H.
  - injection H as <- _ _. auto.
  - cbn [read_users] in H.
    destruct (read_user_header inp al) as [[uid vc] inp1 al1|al1]; [|discriminate].
    destruct (Z.ltb_spec (Z.of_nat (length acc)) slots); [|discriminate].
    destruct (read_visits (Z.to_nat vc) 0 max (alloc_slots (if 0 <? vc then vc else 10)) []
                inp1 al1) as [vs inp2 al2|al2|] eqn:Hv; try discriminate.
    pose proof (alloc_slots_nonneg (if 0 <? vc then vc else 10)) as Hn.
    assert (Hb : Z.of_nat (length vs) <= max /\
                 Z.of_nat (length vs) <= alloc_slots (if 0 <? vc then vc else 10))
      by (refine (read_visits_bound _ _ _ _ _ _ _ _ _ _ _ _ _ Hv); cbn [length]; lia).
    refine (IH _ _ _ Hm _ _ H); [rewrite length_app; cbn [length]; lia|].
    apply Forall_app. split; [exact Ha|]. constructor; [exact Hb|constructor].
Qed.

(** Whatever the file holds and whichever allocations fail, a manager
    returned by [VisitManagerCreate] has the requested [max_visits] and
    path, no more users than its users array holds, and in every record at
    most [max_visits] visits, no more than that record's array holds. *)
Theorem create_bounded al file p max m :
  0 <= max -> VisitManagerCreate al file p max = Ok (Some m) ->
  max_visits m = max /\ path m = p /\
  Z.of_nat (length (users m)) <= alloc_slots (user_capacity m) /\
  Forall (bounded_user max) (users m).
Proof.
  intros Hm H.
  assert (Hf : forall al', fresh_manager al' p max = Some m ->
            max_visits m = max /\ path m = p /\
            Z.of_nat (length (users m)) <= alloc_slots (user_capacity m) /\
            Forall (bounded_user max) (users m))
    by (intros al' E; apply fresh_manager_some in E; subst m; cbn;
        pose proof (alloc_slots_nonneg 10); auto).
  unfold VisitManagerCreate, deserialize_manager in H.
  destruct file as [bytes|]; [|injection H as H; exact (Hf _ H)].
  match type of H with
  | context [match ?e with DOk _ _ _ => _ | DErr _ => _ end] =>
      destruct e as [uc inp al1|al1]
  end; cbv beta iota zeta in H; [|injection H as H; exact (Hf _ H)].
  destruct (read_users (Z.to_nat uc) (alloc_slots (if 0 <? uc then uc else 10)) max [] inp al1)
    as [us inp2 al2|k al2|] eqn:Hr.
  - injection H as <-. cbn [max_visits path users user_capacity].
    pose proof (alloc_slots_nonneg (if 0 <? uc then uc else 10)).
    assert (Hb : Z.of_nat (length us) <= alloc_slots (if 0 <? uc then uc else 10) /\
                 Forall (bounded_user max) us)
      by (refine (read_users_bound _ _ _ _ _ _ _ _ _ Hm _ (Forall_nil _) Hr); cbn [length]; lia).
    destruct Hb. auto.
  - destruct (k <? Z.to_nat uc)%nat; [discriminate|injection H as H; exact (Hf _ H)].
  - discriminate.
Qed.

Lemma create_bounded_witness :
  0 <= 1 /\
  VisitManagerCreate [] (Some (encode_file 5 fus_three)) "rv.dat" 1
  = Ok (Some (mk_manager [mk_user 1 [visit_at 8 50] 3; mk_user 2 [visit_at 5 10] 1]
                         2 1 "rv.dat")) /\
  max_visits (mk_manager [mk_user 1 [visit_at 8 50] 3; mk_user 2 [visit_at 5 10] 1] 2 1 "rv.dat")
    = 1.
Proof.
  assert (Hm : 0 <= 1) by lia.
  assert (H : VisitManagerCreate [] (Some (encode_file 5 fus_three)) "rv.dat" 1
    = Ok (Some (mk_manager [mk_user 1 [visit_at 8 50] 3; mk_user 2 [visit_at 5 10] 1]
                           2 1 "rv.dat"))) by (vm_compute; reflexivity).
  split; [exact Hm|]. split; [exact H|].
  exact (proj1 (create_bounded _ _ _ _ _ Hm H)).
Defined.

Lemma fread_u64_bytes bs rest al :
  length bs = 8%nat -> fread_u64 (bs ++ rest) al = DOk (le_value bs) rest al.
Proof.
  intros L. unfold fread_u64, dbind. rewrite fread_bytes_app by (lia || exact L).
  reflexivity.
Qed.

Lemma fresh_manager_cases al p max :
  fresh_manager al p max = None \/ fresh_manager al p max = Some (mk_manager [] 10 max p).
Proof.
  destruct (fresh_manager al p max) eqn:E; [right; apply fresh_manager_some in E; congruence|auto].
Qed.

(** A file too short to hold its two 8-byte header fields is ignored:
    [VisitManagerCreate] builds the fresh manager as when there is no file
    (after the two allocations [deserialize_manager] made and released);
    when allocations succeed that is the empty manager with room for 10
    users. *)
Theorem create_short_file al bytes p max :
  (length bytes < 16)%nat ->
  (exists al', VisitManagerCreate al (Some bytes) p max = Ok (fresh_manager al' p max)) /\
  VisitManagerCreate [] (Some bytes) p max = Ok (Some (mk_manager [] 10 max p)).
Proof.
  intros Hl. split.
  - unfold VisitManagerCreate, deserialize_manager.
    unfold fread_u64, dalloc, fread_bytes, dret, dbind.
    destruct (next_alloc al) as [[|] al1]; cbv beta iota zeta; [|eauto].
    destruct (next_alloc al1) as [[|] al2]; cbv beta iota zeta; [|eauto].
    destruct (Z.of_nat (length bytes) <? 8) eqn:E1; cbv beta iota zeta; [eauto|].
    apply Z.ltb_ge in E1.
    replace (Z.of_nat (length (skipn (Z.to_nat 8) bytes)) <? 8) with true
      by (symmetry; apply Z.ltb_lt; rewrite length_skipn; change (Z.to_nat 8) with 8%nat; lia).
    eauto.
  - unfold VisitManagerCreate, deserialize_manager.
    unfold fread_u64, dalloc, fread_bytes, dret, dbind.
    cbv beta iota zeta delta [next_alloc].
    destruct (Z.of_nat (length bytes) <? 8) eqn:E1; cbv beta iota zeta; [reflexivity|].
    apply Z.ltb_ge in E1.
    replace (Z.of_nat (length (skipn (Z.to_nat 8) bytes)) <? 8) with true
      by (symmetry; apply Z.ltb_lt; rewrite length_skipn; change (Z.to_nat 8) with 8%nat; lia).
    reflexivity.
Qed.

Lemma create_short_file_witness :
  (length (le_bytes 8 5 ++ [x01; x02]) < 16)%nat /\
  VisitManagerCreate [] (Some (le_bytes 8 5 ++ [x01; x02])) "rv.dat" 3
  = Ok (Some (mk_manager [] 10 3 "rv.dat")).
Proof.
  assert (H : (length (le_bytes 8 5 ++ [x01; x02]) < 16)%nat) by (vm_compute; lia).
  split; [exact H|]. exact (proj2 (create_short_file [] _ "rv.dat" 3 H)).
Defined.

(** A file whose user count is zero gives the empty manager with room for
    10 users, whatever bytes follow the header; with failing allocations the
    result is NULL, never a manager with users. *)
Theorem create_zero_users al hdr cnt rest p max :
  length hdr = 8%nat -> length cnt = 8%nat -> le_value cnt = 0 ->
  (VisitManagerCreate al (Some (hdr ++ cnt ++ rest)) p max = Ok None \/
   VisitManagerCreate al (Some (hdr ++ cnt ++ rest)) p max
   = Ok (Some (mk_manager [] 10 max p))) /\
  VisitManagerCreate [] (Some (hdr ++ cnt ++ rest)) p max = Ok (Some (mk_manager [] 10 max p)).
Proof.
  intros Hh Hc Hv.
  assert (Hread : forall al0, fread_u64 (hdr ++ cnt ++ rest) al0 = DOk (le_value hdr) (cnt ++ rest) al0
           /\ fread_u64 (cnt ++ rest) al0 = DOk 0 rest al0)
    by (intros al0; rewrite !fread_u64_bytes, Hv by assumption; auto).
  split.
  - cut (exists o, VisitManagerCreate al (Some (hdr ++ cnt ++ rest)) p max = Ok o /\
                   (o = None \/ o = Some (mk_manager [] 10 max p)));
      [intros (o & -> & [-> | ->]); auto|].
    unfold VisitManagerCreate, deserialize_manager.
    unfold dbind at 1. unfold dalloc at 1.
    destruct (next_alloc al) as [[|] al1]; cbv beta iota zeta;
      [|exact (ex_intro _ _ (conj eq_refl (fresh_manager_cases al1 p max)))].
    unfold dbind at 1. unfold dalloc at 1.
    destruct (next_alloc al1) as [[|] al2]; cbv beta iota zeta;
      [|exact (ex_intro _ _ (conj eq_refl (fresh_manager_cases al2 p max)))].
    unfold dbind at 1. rewrite (proj1 (Hread al2)). cbv beta iota.
    unfold dbind at 1. rewrite (proj2 (Hread al2)). cbv beta iota.
    unfold dbind at 1. unfold dalloc at 1.
    destruct (next_alloc al2) as [[|] al3]; cbv beta iota zeta;
      [|exact (ex_intro _ _ (conj eq_refl (fresh_manager_cases al3 p max)))].
    eexists. split; [reflexivity|]. right. reflexivity.
  - unfold VisitManagerCreate, deserialize_manager.
    unfold dbind at 1. unfold dalloc at 1. cbv beta iota zeta delta [next_alloc].
    unfold dbind at 1. unfold dalloc at 1. cbv beta iota zeta delta [next_alloc].
    unfold dbind at 1. rewrite (proj1 (Hread [])). cbv beta iota.
    unfold dbind at 1. rewrite (proj2 (Hread [])). cbv beta iota.
    unfold dbind at 1. unfold dalloc at 1. cbv beta iota zeta delta [next_alloc].
    reflexivity.
Qed.

Lemma create_zero_users_witness :
  length (le_bytes 8 7) = 8%nat /\ length (le_bytes 8 0) = 8%nat /\ le_value (le_bytes 8 0) = 0 /\
  VisitManagerCreate [] (Some (le_bytes 8 7 ++ le_bytes 8 0 ++ [x01; x02; x03])) "rv.dat" 4
  = Ok (Some (mk_manager [] 10 4 "rv.dat")).
Proof.
  assert (H1 : length (le_bytes 8 7) = 8%nat) by reflexivity.
  assert (H2 : length (le_bytes 8 0) = 8%nat) by reflexivity.
  assert (H3 : le_value (le_bytes 8 0) = 0) by reflexivity.
  split; [exact H1|]. split; [exact H2|]. split; [exact H3|].
  exact (proj2 (create_zero_users [] _ _ [x01; x02; x03] "rv.dat" 4 H1 H2 H3)).
Defined.

Lemma strlen_lt b n : strlen b = Some n -> (n < length b)%nat.
Proof.
  revert n. induction b as [|x b IH]; intros n; simpl; [discriminate|].
  destruct (Byte.eqb x x00); [intros [= <-]; lia|].
  destruct (strlen b) as [k|]; simpl; [intros [= <-]; specialize (IH k eq_refl); lia|discriminate].
Qed.

Lemma serialize_visit_none v :
  serialize_visit v = None <-> strlen (url v) = None \/ strlen (text v) = None.
Proof.
  unfold serialize_visit.
  destruct (strlen (url v)), (strlen (text v)); intuition discriminate.
Qed.

Lemma serialize_visits_none vs :
  serialize_visits vs = None <-> exists v, In v vs /\ serialize_visit v = None.
Proof.
  induction vs as [|v vs IH]; simpl.
  - split; [discriminate|]. intros (v & [] & _).
  - transitivity (serialize_visit v = None \/ serialize_visits vs = None).
    + destruct (serialize_visit v), (serialize_visits vs); intuition discriminate.
    + rewrite IH. split.
      * intros [H | (w & Hw & Hn)]; eauto.
      * intros (w & [<- | Hw] & Hn); eauto.
Qed.

Lemma serialize_users_none us :
  serialize_users us = None <-> exists u, In u us /\ serialize_visits (visits u) = None.
Proof.
  induction us as [|u us IH]; simpl.
  - split; [discriminate|]. intros (u & [] & _).
  - transitivity (serialize_visits (visits u) = None \/ serialize_users us = None).
    + destruct (serialize_visits (visits u)), (serialize_users us); intuition discriminate.
    + rewrite IH. split.
      * intros [H | (w & Hw & Hn)]; eauto.
      * intros (w & [<- | Hw] & Hn); eauto.
Qed.

(** [serialize_manager] is undefined exactly when some stored url or text
    has no NUL byte; otherwise it always produces its bytes. *)
Theorem serialize_undefined_iff m :
  serialize_manager m = Undefined <->
  exists u v, In u (users m) /\ In v (visits u) /\
              (strlen (url v) = None \/ strlen (text v) = None).
Proof.
  unfold serialize_manager.
  destruct (serialize_users (users m)) as [b|] eqn:E.
  - split; [discriminate|]. intros (u & v & Hu & Hv & Hn).
    assert (N : serialize_users (users m) = None).
    { apply serialize_users_none. exists u. split; [exact Hu|].
      apply serialize_visits_none. exists v. split; [exact Hv|].
      apply serialize_visit_none. exact Hn. }
    congruence.
  - split; [intros _|reflexivity].
    destruct (proj1 (serialize_users_none _) E) as (u & Hu & Hn).
    destruct (proj1 (serialize_visits_none _) Hn) as (v & Hv & Hn').
    exists u, v. split; [exact Hu|]. split; [exact Hv|]. apply serialize_visit_none. exact Hn'.
Qed.

Lemma serialize_visit_cut v b :
  serialize_visit v = Some b -> b = encode_visit (cut_visit v).
Proof.
  unfold serialize_visit, encode_visit, cut_visit, cut_buf. cbn [visit_id url text time].
  destruct (strlen (url v)) as [ul|] eqn:Eu; [|discriminate].
  destruct (strlen (text v)) as [tl|] eqn:Et; [|discriminate].
  intros [= <-].
  apply strlen_lt in Eu, Et.
  rewrite !length_firstn, !Nat.min_l by lia. reflexivity.
Qed.

Lemma serialize_visits_cut vs b :
  serialize_visits vs = Some b -> b = flat_map encode_visit (map cut_visit vs).
Proof.
  revert b. induction vs as [|v vs IH]; intros b; simpl; [congruence|].
  destruct (serialize_visit v) as [b1|] eqn:E1; [|discriminate].
  destruct (serialize_visits vs) as [bs|]; [|discriminate].
  intros [= <-]. rewrite (serialize_visit_cut _ _ E1), (IH bs eq_refl). reflexivity.
Qed.

Lemma serialize_users_cut us b :
  serialize_users us = Some b ->
  b = flat_map encode_user (map (fun u => (user_id u, map cut_visit (visits u))) us).
Proof.
  revert b. induction us as [|u us IH]; intros b; simpl; [congruence|].
  destruct (serialize_visits (visits u)) as [b1|] eqn:E1; [|discriminate].
  destruct (serialize_users us) as [bs|]; [|discriminate].
  intros [= <-]. rewrite (serialize_visits_cut _ _ E1), (IH bs eq_refl).
  unfold encode_user. cbn [fst snd]. rewrite length_map, <- ?app_assoc. reflexivity.
Qed.

(** What [serialize_manager] writes is the file format of the manager in
    which every url and text is cut right after its first NUL byte: the
    bytes a buffer holds after its first NUL are never saved. *)
Theorem serialize_writes_cut_strings m b :
  serialize_manager m = Ok b ->
  b = encode_file (max_visits m)
        (map (fun u => (user_id u, map cut_visit (visits u))) (users m)).
Proof.
  unfold serialize_manager, encode_file.
  destruct (serialize_users (users m)) as [bs|] eqn:E; [|discriminate].
  intros [= <-]. rewrite length_map, (serialize_users_cut _ _ E). reflexivity.
Qed.

Lemma serialize_writes_cut_strings_witness :
  serialize_manager (mk_manager [mk_user 1 [mk_visit 7 [x61; x00; x62] [x00] (mk_timespec 1 2)] 5]
                     10 5 "rv.dat")
  = Ok (encode_file 5 [(1, [mk_visit 7 [x61; x00] [x00] (mk_timespec 1 2)])]) /\
  encode_file 5 [(1, [mk_visit 7 [x61; x00] [x00] (mk_timespec 1 2)])]
  = encode_file 5 (map (fun u => (user_id u, map cut_visit (visits u)))
                    [mk_user 1 [mk_visit 7 [x61; x00; x62] [x00] (mk_timespec 1 2)] 5]).
Proof.
  assert (H : serialize_manager (mk_manager [mk_user 1 [mk_visit 7 [x61; x00; x62] [x00]
                                  (mk_timespec 1 2)] 5] 10 5 "rv.dat")
              = Ok (encode_file 5 [(1, [mk_visit 7 [x61; x00] [x00] (mk_timespec 1 2)])]))
    by (vm_compute; reflexivity).
  split; [exact H|]. exact (serialize_writes_cut_strings _ _ H).
Defined.

(** [VisitManagerClear] empties the visits of the named user but keeps its
    record, with the same capacity and place in the users array; every other
    user, the user list and the settings are unchanged. An unknown user id
    changes nothing. *)
Theorem clear_effect m uid :
  map user_id (users (VisitManagerClear m uid)) = map user_id (users m) /\
  find_user (users (VisitManagerClear m uid)) uid
  = option_map (fun u => mk_user uid [] (capacity u)) (find_user (users m) uid) /\
  (forall uid', uid' <> uid ->
     find_user (users (VisitManagerClear m uid)) uid' = find_user (users m) uid') /\
  user_capacity (VisitManagerClear m uid) = user_capacity m /\
  max_visits (VisitManagerClear m uid) = max_visits m /\
  path (VisitManagerClear m uid) = path m.
Proof.
  unfold VisitManagerClear.
  destruct (find_user (users m) uid) as [u|] eqn:Hf; [|auto 7].
  pose proof (proj1 (find_user_some _ _ _ Hf)) as Hid.
  unfold update_user. cbn [users user_capacity max_visits path option_map].
  split; [apply map_user_id_set_user|].
  split; [|split; [|auto]].
  - pose proof (find_user_set_user_same (users m) u (mk_user (user_id u) [] (capacity u))
                  ltac:(cbn [user_id]; rewrite Hid; exact Hf)) as E.
    cbn [user_id] in E. rewrite Hid in E |- *. exact E.
  - intros uid' Hne. apply find_user_set_user_other. cbn [user_id]. congruence.
Qed.

Lemma delete_id_count vs id b vs' :
  delete_id vs id = (b, vs') ->
  (b = true /\ length vs = S (length vs')) \/ (b = false /\ vs' = vs).
Proof.
  unfold delete_id.
  destruct (find_index _ vs) as [j|] eqn:E; intros [= <- <-]; [left|right; auto].
  split; [reflexivity|]. rewrite swap_remove_length.
  apply find_index_some in E. destruct E as (x & Hx & _).
  assert (Hj : (j < length vs)%nat) by (apply nth_error_Some; congruence).
  lia.
Qed.

Lemma delete_ids_count l vs f f' vs' :
  delete_ids l vs f = (f', vs') ->
  (length vs' <= length vs <= length vs' + length l)%nat /\
  (f' = true <-> f = true \/ (length vs' < length vs)%nat).
Proof.
  revert vs f. induction l as [|id l IH]; intros vs f H; simpl in H.
  - injection H as <- <-. simpl. split; [lia|]. intuition lia.
  - destruct (delete_id vs id) as [b vs1] eqn:E.
    destruct (IH _ _ H) as [[H1 H2] H3].
    destruct (delete_id_count _ _ _ _ E) as [[-> Hl] | [-> ->]]; cbn [length].
    + rewrite orb_true_r in H3. split; [lia|]. intuition (try lia; try discriminate).
    + rewrite orb_false_r in H3. split; [lia|]. exact H3.
Qed.

(** Even when a record holds several visits with the same id, [Delete]
    removes at most one visit per requested id (the first match), and it
    returns true exactly when the user's record lost at least one visit;
    the record keeps its capacity. *)
Theorem delete_count m uid ids r m' u :
  find_user (users m) uid = Some u ->
  VisitManagerDelete (Some m) uid (Some ids) = (r, Some m') ->
  exists u', find_user (users m') uid = Some u' /\ capacity u' = capacity u /\
    (length (visits u') <= length (visits u) <= length (visits u') + length ids)%nat /\
    (r = true <-> (length (visits u') < length (visits u))%nat).
Proof.
  intros Hf H. pose proof (proj1 (find_user_some _ _ _ Hf)) as Hid.
  unfold VisitManagerDelete in H.
  destruct ids as [|id l].
  - injection H as <- <-. exists u. split; [exact Hf|]. split; [reflexivity|].
    split; [lia|]. split; [discriminate|lia].
  - rewrite Hf in H.
    destruct (delete_ids (id :: l) (visits u) false) as [fa vs'] eqn:E.
    injection H as <- <-.
    destruct (delete_ids_count _ _ _ _ _ E) as [Hl Hr].
    exists (mk_user (user_id u) vs' (capacity u)).
    split.
    + unfold update_user. cbn [users].
      pose proof (find_user_set_user_same (users m) u (mk_user (user_id u) vs' (capacity u))
                    ltac:(cbn [user_id]; rewrite Hid; exact Hf)) as E2.
      cbn [user_id] in E2. rewrite Hid in E2 |- *. exact E2.
    + cbn [capacity visits]. split; [reflexivity|]. split; [exact Hl|].
      rewrite Hr. intuition discriminate.
Qed.

Lemma delete_count_witness :
  find_user (users m_dup) 1 = Some (mk_user 1 [visit_at 7 100; visit_at 7 50] 3) /\
  VisitManagerDelete (Some m_dup) 1 (Some [7])
  = (true, Some (update_user m_dup (mk_user 1 [visit_at 7 50] 3))) /\
  exists u', find_user (users (update_user m_dup (mk_user 1 [visit_at 7 50] 3))) 1 = Some u' /\
    (length (visits u') <= 2 <= length (visits u') + 1)%nat.
Proof.
  assert (H1 : find_user (users m_dup) 1 = Some (mk_user 1 [visit_at 7 100; visit_at 7 50] 3))
    by reflexivity.
  assert (H2 : VisitManagerDelete (Some m_dup) 1 (Some [7])
               = (true, Some (update_user m_dup (mk_user 1 [visit_at 7 50] 3))))
    by reflexivity.
  split; [exact H1|]. split; [exact H2|].
  destruct (delete_count _ _ _ _ _ _ H1 H2) as (u' & Hu' & _ & Hl & _).
  exists u'. split; [exact Hu'|exact Hl].
Defined.

Lemma firstn_app_ge {A} (X R : list A) k :
  (length X <= k)%nat -> firstn k (X ++ R) = X ++ firstn (k - length X) R.
Proof. intros L. rewrite firstn_app, firstn_all2 by exact L. reflexivity. Qed.

Lemma fread_bytes_short n inp al :
  Z.of_nat (length inp) < n -> fread_bytes n inp al = DErr al.
Proof. intros L. unfold fread_bytes. apply Z.ltb_lt in L. rewrite L. reflexivity. Qed.

Lemma fread_u32_short inp al : (length inp < 4)%nat -> fread_u32 inp al = DErr al.
Proof. intros L. unfold fread_u32, dbind. rewrite fread_bytes_short by lia. reflexivity. Qed.

Lemma fread_u64_short inp al : (length inp < 8)%nat -> fread_u64 inp al = DErr al.
Proof. intros L. unfold fread_u64, dbind. rewrite fread_bytes_short by lia. reflexivity. Qed.

Lemma fread_timespec_short inp al : (length inp < 16)%nat -> fread_timespec inp al = DErr al.
Proof. intros L. unfold fread_timespec, dbind. rewrite fread_bytes_short by lia. reflexivity. Qed.

(** A strict prefix of a stored visit: [read_visit] fails on it. *)
Lemma read_visit_prefix v k rest :
  visit_repr v = true -> (k < length (encode_visit v))%nat ->
  read_visit (firstn k (encode_visit v ++ rest)) [] = DErr [].
Proof.
  destruct v as [vid u t [s ns]]. intros H Hk.
  unfold visit_repr, in_range in H. cbn [visit_id url text time tv_sec tv_nsec] in H.
  rewrite !andb_true_iff, !Z.leb_le, !Z.ltb_lt in H.
  destruct H as [[[[[Hv1 Hv2] Hu] Ht] [Hs1 Hs2]] [Hn1 Hn2]].
  unfold encode_visit in *; cbn [visit_id url text time tv_sec tv_nsec] in *.
  rewrite !length_app, !le_bytes_length in Hk.
  rewrite <- !app_assoc.
  unfold read_visit, dbind at 1. rewrite dalloc_nil.
  unfold dbind at 1.
  destruct (Nat.lt_ge_cases k 4) as [L1|L1].
  { rewrite fread_u32_short by (rewrite length_firstn; lia). reflexivity. }
  rewrite firstn_app_ge, le_bytes_length, fread_u32_le by (rewrite ?le_bytes_length; lia).
  unfold dbind at 1.
  destruct (Nat.lt_ge_cases (k - 4) 8) as [L2|L2].
  { rewrite fread_u64_short by (rewrite length_firstn; lia). reflexivity. }
  rewrite firstn_app_ge, le_bytes_length, fread_u64_le by (rewrite ?le_bytes_length; lia).
  unfold dbind at 1. rewrite dalloc_nil.
  unfold dbind at 1.
  destruct (Nat.lt_ge_cases (k - 4 - 8) (length u)) as [L3|L3].
  { rewrite fread_bytes_short by (rewrite length_firstn; lia). reflexivity. }
  rewrite firstn_app_ge, fread_bytes_app by (rewrite ?Nat2Z.id; lia).
  unfold dbind at 1.
  destruct (Nat.lt_ge_cases (k - 4 - 8 - length u) 8) as [L4|L4].
  { rewrite fread_u64_short by (rewrite length_firstn; lia). reflexivity. }
  rewrite firstn_app_ge, le_bytes_length, fread_u64_le by (rewrite ?le_bytes_length; lia).
  unfold dbind at 1. rewrite dalloc_nil.
  unfold dbind at 1.
  destruct (Nat.lt_ge_cases (k - 4 - 8 - length u - 8) (length t)) as [L5|L5].
  { rewrite fread_bytes_short by (rewrite length_firstn; lia). reflexivity. }
  rewrite firstn_app_ge, fread_bytes_app by (rewrite ?Nat2Z.id; lia).
  unfold dbind at 1.
  rewrite fread_timespec_short by (rewrite length_firstn, !length_app, !le_bytes_length; lia).
  reflexivity.
Qed.

Lemma read_visit_prefix_ok v k rest :
  visit_repr v = true -> (length (encode_visit v) <= k)%nat ->
  read_visit (firstn k (encode_visit v ++ rest)) []
  = DOk v (firstn (k - length (encode_visit v)) rest) [].
Proof.
  intros H L. rewrite firstn_app_ge by exact L. apply read_visit_encode, H.
Qed.

Lemma read_visits_prefix vs j max slots kept k :
  forallb visit_repr vs = true -> 0 <= j -> j + Z.of_nat (length vs) <= slots ->
  (k < length (flat_map encode_visit vs))%nat ->
  read_visits (length vs) j max slots kept (firstn k (flat_map encode_visit vs)) [] = VFail [].
Proof.
  revert j kept k. induction vs as [|v vs IH]; intros j kept k Hr Hj Hs Hk.
  - simpl in Hk. lia.
  - simpl in Hr. apply andb_true_iff in Hr as [Hv Hr].
    cbn [length flat_map] in *. rewrite length_app in Hk. cbn [read_visits].
    destruct (Nat.lt_ge_cases k (length (encode_visit v))) as [L|L].
    + rewrite read_visit_prefix by assumption. reflexivity.
    + rewrite read_visit_prefix_ok by assumption.
      replace (j <? slots) with true by (symmetry; apply Z.ltb_lt; lia).
      destruct (j <? max); apply IH; auto; lia.
Qed.

Lemma read_users_encode_more fus n slots max acc rest :
  forallb user_repr fus = true -> Z.of_nat (length acc + length fus) <= slots ->
  read_users (length fus + n) slots max acc (flat_map encode_user fus ++ rest) [] =
  read_users n slots max (acc ++ map (decoded_user max) fus) rest [].
Proof.
  revert acc. induction fus as [|[uid vs] fus IH]; intros acc Hr Hs.
  - simpl. rewrite app_nil_r. reflexivity.
  - simpl in Hr. apply andb_true_iff in Hr as [Hu Hr].
    unfold user_repr, in_range in Hu. cbn [fst snd] in Hu.
    rewrite !andb_true_iff, Z.leb_le, !Z.ltb_lt in Hu.
    destruct Hu as [[[Hu1 Hu2] Hn] Hvs].
    cbn [length flat_map Nat.add] in *. unfold encode_user. cbn [fst snd].
    rewrite <- !app_assoc. cbn [read_users].
    rewrite read_user_header_le by lia. cbv beta iota.
    replace (Z.of_nat (length acc) <? slots) with true by (symmetry; apply Z.ltb_lt; lia).
    rewrite alloc_slots_small by (destruct (Z.ltb_spec 0 (Z.of_nat (length vs))); lia).
    rewrite Nat2Z.id, read_visits_encode
      by (auto; destruct (Z.ltb_spec 0 (Z.of_nat (length vs))); lia).
    cbv beta iota. rewrite IH by (auto; rewrite length_app; simpl; lia).
    rewrite <- app_assoc, Z.sub_0_r. reflexivity.
Qed.

(** A saved file cut off anywhere inside the visits of its last user is
    dropped as a whole: [VisitManagerCreate] returns the empty manager (room
    for 10 users), not the users stored before the cut. *)
Theorem create_truncated_last_user stored fus uid vs k p max :
  file_repr (fus ++ [(uid, vs)]) = true ->
  (k < length (flat_map encode_visit vs))%nat ->
  VisitManagerCreate []
    (Some (firstn (16 + length (flat_map encode_user fus) + 12 + k)
                  (encode_file stored (fus ++ [(uid, vs)])))) p max
  = Ok (Some (mk_manager [] 10 max p)).
Proof.
  intros Hf Hk.
  unfold file_repr in Hf. rewrite andb_true_iff, Z.ltb_lt, forallb_app in Hf.
  destruct Hf as [Hn Hr]. apply andb_true_iff in Hr as [Hr Hl]. simpl in Hl.
  rewrite andb_true_r in Hl.
  pose proof Hl as Hl'.
  unfold user_repr, in_range in Hl'. cbn [fst snd] in Hl'.
  rewrite !andb_true_iff, Z.leb_le, !Z.ltb_lt in Hl'.
  destruct Hl' as [[[Hu1 Hu2] Hvn] Hvs].
  rewrite length_app in Hn. cbn [length] in Hn.
  assert (Hne : (0 < length vs)%nat) by (destruct vs; [simpl in Hk; lia | simpl; lia]).
  unfold encode_file. rewrite flat_map_app. cbn [flat_map]. rewrite app_nil_r.
  change (encode_user (uid, vs))
    with (le_bytes 4 uid ++ le_bytes 8 (Z.of_nat (length vs)) ++ flat_map encode_visit vs).
  rewrite length_app. cbn [length].
  rewrite !firstn_app_ge by (rewrite ?length_app, ?le_bytes_length; lia).
  rewrite !le_bytes_length.
  replace (16 + length (flat_map encode_user fus) + 12 + k - 8 - 8
           - length (flat_map encode_user fus) - 4 - 8)%nat with k by lia.
  unfold VisitManagerCreate, deserialize_manager.
  unfold dbind at 1. rewrite dalloc_nil.
  unfold dbind at 1. rewrite dalloc_nil.
  unfold dbind at 1. rewrite fread_u64_mod.
  unfold dbind at 1. rewrite fread_u64_le by lia.
  unfold dbind at 1. rewrite dalloc_nil. unfold dret. cbv beta iota zeta.
  replace (0 <? Z.of_nat (length fus + 1)) with true by (symmetry; apply Z.ltb_lt; lia).
  rewrite alloc_slots_small by lia.
  replace (Z.to_nat (Z.of_nat (length fus + 1))) with (length fus + 1)%nat by lia.
  rewrite read_users_encode_more by (auto; simpl; lia).
  cbn [read_users].
  rewrite read_user_header_le by lia. cbv beta iota.
  rewrite app_nil_l, length_map.
  replace (Z.of_nat (length fus) <? Z.of_nat (length fus + 1)) with true
    by (symmetry; apply Z.ltb_lt; lia).
  replace (0 <? Z.of_nat (length vs)) with true by (symmetry; apply Z.ltb_lt; lia).
  rewrite alloc_slots_small by lia. rewrite Nat2Z.id.
  rewrite read_visits_prefix by (auto; lia).
  replace (S (length fus) <? length fus + 1)%nat with false
    by (symmetry; apply Nat.ltb_ge; lia).
  reflexivity.
Qed.

Lemma create_truncated_last_user_witness :
  file_repr ([(1, [visit_at 8 50])] ++ [(2, [visit_at 5 10])]) = true /\
  (10 < length (flat_map encode_visit [visit_at 5 10]))%nat /\
  VisitManagerCreate []
    (Some (firstn (16 + length (flat_map encode_user [(1, [visit_at 8 50])]) + 12 + 10)
                  (encode_file 3 ([(1, [visit_at 8 50])] ++ [(2, [visit_at 5 10])])))) "rv.dat" 3
  = Ok (Some (mk_manager [] 10 3 "rv.dat")).
Proof.
  assert (H1 : file_repr ([(1, [visit_at 8 50])] ++ [(2, [visit_at 5 10])]) = true)
    by (vm_compute; reflexivity).
  assert (H2 : (10 < length (flat_map encode_visit [visit_at 5 10]))%nat) by (vm_compute; lia).
  split; [exact H1|]. split; [exact H2|].
  exact (create_truncated_last_user 3 _ 2 _ 10 "rv.dat" 3 H1 H2).
Defined.

Lemma find_or_create_caps al m uid r :
  Z.of_nat (length (users m)) <= user_capacity m -> user_capacity m < 2 ^ 60 ->
  user_capacity m <= Z.max 10 (2 * Z.of_nat (length (users m))) ->
  find_or_create al m uid = Ok r ->
  let m1 := match r with inl m1 => m1 | inr (_, m1, _) => m1 end in
  (length (users m1) <= S (length (users m)))%nat /\
  user_capacity m1 <= Z.max 10 (2 * Z.of_nat (length (users m1))).
Proof.
  intros Hl Hc Hm H. unfold find_or_create in H.
  destruct (find_user (users m) uid); [injection H as <-; cbv beta iota zeta; lia|].
  replace ((user_capacity m * 2) mod size_max_mod) with (user_capacity m * 2) in H
    by (unfold size_max_mod; symmetry; apply Z.mod_small; lia).
  destruct (Z.of_nat (length (users m)) >=? user_capacity m) eqn:Hg;
    [apply Z.geb_le in Hg | rewrite Z.geb_leb in Hg; apply Z.leb_gt in Hg];
    repeat (cbn in H; match type of H with
      | context [next_alloc ?x] => destruct (next_alloc x) as [[|] ?]
      | context [if ?c then _ else _] => destruct c
      end);
    try discriminate; injection H as <-; cbv beta iota zeta; cbn [users user_capacity];
    rewrite ?length_app; cbn [length]; lia.
Qed.

Lemma add_visit_caps al now m uid vid u t b m' :
  Z.of_nat (length (users m)) <= user_capacity m -> user_capacity m < 2 ^ 60 ->
  user_capacity m <= Z.max 10 (2 * Z.of_nat (length (users m))) ->
  VisitManagerAddVisit al now m uid vid (Some u) (Some t) = Ok (b, m') ->
  (length (users m') <= S (length (users m)))%nat /\
  user_capacity m' <= Z.max 10 (2 * Z.of_nat (length (users m'))).
Proof.
  intros Hl Hc Hm H.
  destruct (add_visit_shape _ _ _ _ _ _ _ _ _ H) as (r & Hr & Hs).
  pose proof (find_or_create_caps _ _ _ _ Hl Hc Hm Hr) as Hcap.
  destruct r as [m1|[[usr m1] al1]]; cbn beta iota in Hcap.
  - subst m'. exact Hcap.
  - destruct Hs as [-> | (vs & c & ->)]; [exact Hcap|].
    unfold update_user; cbn [users user_capacity]. rewrite length_set_user. exact Hcap.
Qed.

Lemma run_ok sort cs m :
  (forall vs, length (sort vs) = length vs) ->
  manager_ok m = true ->
  user_capacity m <= Z.max 10 (2 * Z.of_nat (length (users m))) ->
  Z.of_nat (length (users m)) + Z.of_nat (length cs) < 2 ^ 58 ->
  exists m', run sort m cs = Ok m' /\ manager_ok m' = true.
Proof.
  intros Hsort. revert m. induction cs as [|c cs IH]; intros m Hok Hcap Hn.
  - exists m. auto.
  - pose proof Hok as Hs. rewrite manager_ok_spec in Hs.
    destruct Hs as (_ & _ & Hl & _).
    cbn [length] in Hn.
    destruct c as [al now uid vid u t|uid|uid ids|uid]; cbn [run];
      [|destruct (other_ops_invariant_step m uid Hok) as [Hclr [Hdel Hget]] ..].
    + assert (Hc60 : user_capacity m < 2 ^ 60) by lia.
      destruct (add_visit_invariant_step al now m uid vid u t Hok Hc60) as (b & m' & Ha & Hok').
      rewrite Ha.
      destruct (add_visit_caps _ _ _ _ _ _ _ _ _ Hl Hc60 Hcap Ha) as [Hl' Hcap'].
      apply IH; [exact Hok' | exact Hcap' | lia].
    + apply IH; [apply Hclr | |].
      * unfold VisitManagerClear. destruct (find_user (users m) uid); [|exact Hcap].
        unfold update_user; cbn [users user_capacity]. rewrite length_set_user. exact Hcap.
      * unfold VisitManagerClear. destruct (find_user (users m) uid); [|lia].
        unfold update_user; cbn [users]. rewrite length_set_user. lia.
    + destruct (VisitManagerDelete (Some m) uid ids) as [r mo] eqn:Hd.
      destruct (Hdel ids r mo Hd) as (m1 & -> & Hok1).
      unfold VisitManagerDelete in Hd.
      assert (Hm1 : length (users m1) = length (users m) /\ user_capacity m1 = user_capacity m).
      { destruct ids as [[|id l]|]; try (injection Hd as _ <-; auto).
        destruct (find_user (users m) uid); [|injection Hd as _ <-; auto].
        destruct (delete_ids _ _ _). injection Hd as _ <-.
        unfold update_user; cbn [users user_capacity]. rewrite length_set_user. auto. }
      destruct Hm1 as [E1 E2]. cbn [snd].
      apply IH; [exact Hok1 | rewrite E1, E2; exact Hcap | rewrite E1; lia].
    + destruct (VisitManagerGetRecentVisits sort m uid) as [[a k] m1] eqn:Hg.
      assert (Hm1 : length (users m1) = length (users m) /\ user_capacity m1 = user_capacity m).
      { unfold VisitManagerGetRecentVisits in Hg.
        destruct (find_user (users m) uid); injection Hg as _ _ <-; [|auto].
        unfold update_user; cbn [users user_capacity]. rewrite length_set_user. auto. }
      destruct Hm1 as [E1 E2].
      apply IH; [exact (Hget sort Hsort a k m1 Hg) | rewrite E1, E2; exact Hcap | rewrite E1; lia].
Qed.


